(** * Engram Trace Lite: the consolidation engine, embedded and verified

    The development follows [consolidator.ts] and [types.ts].  JavaScript
    numbers are IEEE 754 binary64 values, modelled by Rocq's primitive
    floats; arrays are lists read with stdpp's lookup; a [Set<number>] of
    indices is a [gset nat]; the wall clock and the summarizer backend are
    threaded as an explicit world state. *)

From Stdlib Require Import ZArith String List Floats Lia Bool.
From stdpp Require Import base option list gmap sets strings.

Set Warnings "-inexact-float,-clear-no-such-hyp".

Local Open Scope string_scope.
Local Open Scope nat_scope.

(** ** JavaScript numbers and the built-ins the engine calls *)

Module JS.

(** [a > b], [a >= b] and [a < b] on numbers; every comparison with NaN
    is false. *)
Definition gt (a b : float) : bool := (b <? a)%float.
Definition ge (a b : float) : bool := (b <=? a)%float.
Definition lt (a b : float) : bool := (a <? b)%float.

(** [a === b] on numbers: [-0 === 0], and NaN equals nothing. *)
Definition strict_eq (a b : float) : bool := (a =? b)%float.

Definition is_pos_zero (x : float) : bool :=
  match classify x with PZero => true | _ => false end.
Definition is_neg_zero (x : float) : bool :=
  match classify x with NZero => true | _ => false end.

(** [Math.max(...xs)]: starts from -Infinity, returns NaN as soon as an
    argument is NaN, and ranks +0 above -0. *)
Fixpoint max_from (highest : float) (xs : list float) : float :=
  match xs with
  | [] => highest
  | x :: rest =>
      if is_nan x then nan
      else if is_pos_zero x && is_neg_zero highest then max_from x rest
      else if gt x highest then max_from x rest
      else max_from highest rest
  end.
Definition Math_max (xs : list float) : float := max_from neg_infinity xs.

(** [Math.min(...xs)]: the mirror image, from +Infinity. *)
Fixpoint min_from (lowest : float) (xs : list float) : float :=
  match xs with
  | [] => lowest
  | x :: rest =>
      if is_nan x then nan
      else if is_neg_zero x && is_pos_zero lowest then min_from x rest
      else if lt x lowest then min_from x rest
      else min_from lowest rest
  end.
Definition Math_min (xs : list float) : float := min_from infinity xs.

(** [[...new Set(xs)]]: the distinct elements, each at its first
    occurrence. *)
Fixpoint uniq_from (seen : list string) (xs : list string) : list string :=
  match xs with
  | [] => []
  | x :: rest =>
      if bool_decide (x ∈ seen) then uniq_from seen rest
      else x :: uniq_from (x :: seen) rest
  end.
Definition array_from_set (xs : list string) : list string := uniq_from [] xs.

(** [xs.includes(x)] on an array of strings. *)
Definition includes (xs : list string) (x : string) : bool := bool_decide (x ∈ xs).

(** [s.slice(0, n)] for an integer [n]: a negative end counts from the
    end of the string, and the end is clamped to the length. *)
Definition slice0 (s : string) (n : Z) : string :=
  if (n <? 0)%Z
  then substring 0 (Z.to_nat (Z.max 0 (Z.of_nat (String.length s) + n))) s
  else substring 0 (Z.to_nat n) s.

End JS.

(** ** Data model ([types.ts]) *)

Inductive MemoryTier : Type := Hot | Warm | Cold | Archive.

Global Instance MemoryTier_eq_dec : EqDecision MemoryTier.
Proof. solve_decision. Defined.

(** Values stored under a metadata key.  [MInt] is an integer-valued
    number (a length or a count). *)
Inductive MetaValue : Type :=
  | MNum (x : float)
  | MInt (n : Z)
  | MBool (b : bool)
  | MStr (s : string)
  | MNull.

Record Memory : Type := mkMemory {
  id : string;
  content : string;
  embedding : list float;
  tags : list string;
  importance : float;
  tier : MemoryTier;
  createdAt : string;
  lastAccessed : string;
  accessCount : float;
  source : option string;
  metadata : option (gmap string MetaValue);
}.

(** Object spread with one field overridden: [{ ...m, tier: t }]. *)
Definition with_tier (m : Memory) (t : MemoryTier) : Memory :=
  mkMemory (id m) (content m) (embedding m) (tags m) (importance m) t
           (createdAt m) (lastAccessed m) (accessCount m) (source m) (metadata m).

(** [{ ...md }] of an optional object: an absent one spreads to nothing. *)
Definition spread (md : option (gmap string MetaValue)) : gmap string MetaValue :=
  default ∅ md.

(** Every field is optional; the two counts are integers. *)
Record ConsolidateConfig : Type := mkConfig {
  deduplicateThreshold : option float;
  clusterThreshold : option float;
  minClusterSize : option Z;
  hotDays : option float;
  warmDays : option float;
  coldDays : option float;
  archiveTruncateLength : option Z;
}.

Definition no_config : ConsolidateConfig :=
  mkConfig None None None None None None None.

Record RequiredConfig : Type := mkRequired {
  r_deduplicateThreshold : float;
  r_clusterThreshold : float;
  r_minClusterSize : Z;
  r_hotDays : float;
  r_warmDays : float;
  r_coldDays : float;
  r_archiveTruncateLength : Z;
}.

Definition DEFAULTS : RequiredConfig :=
  mkRequired 0.92%float 0.78%float 3%Z 7%float 30%float 365%float 200%Z.

(** [{ ...DEFAULTS, ...config }]. *)
Definition merge_config (d : RequiredConfig) (c : ConsolidateConfig) : RequiredConfig :=
  mkRequired
    (default (r_deduplicateThreshold d) (deduplicateThreshold c))
    (default (r_clusterThreshold d) (clusterThreshold c))
    (default (r_minClusterSize d) (minClusterSize c))
    (default (r_hotDays d) (hotDays c))
    (default (r_warmDays d) (warmDays c))
    (default (r_coldDays d) (coldDays c))
    (default (r_archiveTruncateLength d) (archiveTruncateLength c)).

(** The order hot < warm < cold < archive, as a rank. *)
Definition tier_rank (t : MemoryTier) : nat :=
  match t with Hot => 0 | Warm => 1 | Cold => 2 | Archive => 3 end.

Record TierCounts : Type := mkCounts {
  n_hot : nat; n_warm : nat; n_cold : nat; n_archive : nat;
}.

Record Snapshot : Type := mkSnapshot { total : nat; byTier : TierCounts }.

Record ConsolidationReport : Type := mkReport {
  timestamp : string;
  durationMs : float;
  before : Snapshot;
  after : Snapshot;
  decayed : nat;
  deduplicated : nat;
  clustersFound : nat;
  summarized : nat;
  archived : nat;
}.

(** ** The environment: wall clock and summarizer

    [W] is the state of the outside world.  Reading the clock and calling
    the summarizer may both change it. *)

Record Clock (W : Type) : Type := mkClock {
  Date_now : W → float * W;           (* Date.now() *)
  Date_iso : W → string * W;          (* new Date().toISOString() *)
  Date_getTime : string → float;      (* new Date(s).getTime() *)
}.
Arguments Date_now {W} _ _.
Arguments Date_iso {W} _ _.
Arguments Date_getTime {W} _ _.

(** [summarize(texts)]: [None] is a rejected promise or a thrown error. *)
Definition Summarizer (W : Type) : Type := list string → W → option string * W.

(** ** Similarity metric *)

(** The loop of [cosineSimilarity], over the paired elements. *)
Fixpoint cosine_loop (ab : list (float * float)) (dot normA normB : float)
  : float * float * float :=
  match ab with
  | [] => (dot, normA, normB)
  | (x, y) :: rest =>
      cosine_loop rest (dot + x * y)%float (normA + x * x)%float (normB + y * y)%float
  end.

Definition cosineSimilarity (a b : list float) : float :=
  if negb (length a =? length b) || (length a =? 0) then 0%float
  else
    let '(dot, normA, normB) := cosine_loop (zip a b) 0%float 0%float 0%float in
    let denom := (sqrt normA * sqrt normB)%float in
    if JS.strict_eq denom 0%float then 0%float else (dot / denom)%float.

(** ** Decay *)

Section Phases.
Context {W : Type} (clock : Clock W).

Definition effectiveAge (now : float) (m : Memory) : float :=
  let ageMs := (now - Date_getTime clock (createdAt m))%float in
  let ageDays := (ageMs / 86400000)%float in
  let accessBoost := JS.Math_min [(accessCount m * 0.5)%float; 5%float] in
  let importanceMultiplier := (1 + importance m * 2)%float in
  ((ageDays - accessBoost) / importanceMultiplier)%float.

Definition decay_tier (now : float) (cfg : RequiredConfig) (m : Memory) : MemoryTier :=
  let age := effectiveAge now m in
  if bool_decide (tier m = Hot) && JS.gt age (r_hotDays cfg) then Warm
  else if bool_decide (tier m = Warm) && JS.gt age (r_warmDays cfg) then Cold
  else if bool_decide (tier m = Cold) && JS.gt age (r_coldDays cfg) then Archive
  else tier m.

(** [memories.map(m => ...)] with the [changed] counter it bumps. *)
Fixpoint decay_map (now : float) (cfg : RequiredConfig)
         (ms : list Memory) (changed : nat) : list Memory * nat :=
  match ms with
  | [] => ([], changed)
  | m :: rest =>
      let newTier := decay_tier now cfg m in
      if bool_decide (newTier ≠ tier m) then
        let '(out, c) := decay_map now cfg rest (S changed) in
        (with_tier m newTier :: out, c)
      else
        let '(out, c) := decay_map now cfg rest changed in
        (m :: out, c)
  end.

Definition decay (memories : list Memory) (config : ConsolidateConfig) (w : W)
  : (list Memory * nat) * W :=
  let cfg := merge_config DEFAULTS config in
  let '(now, w1) := Date_now clock w in
  (decay_map now cfg memories 0, w1).

(** ** Deduplicate *)

(** An array together with the positions of its elements. *)
Definition indexed {A : Type} (l : list A) : list (nat * A) :=
  zip (seq 0 (length l)) l.

(** [importance + accessCount * 0.1], the score of both keep-the-best
    rules. *)
Definition score (m : Memory) : float :=
  (importance m + accessCount m * 0.1)%float.

(** The inner loop [for (j = i + 1; ...)]: [js] are the elements after
    position [i].  Leaving the recursion is the [break]. *)
Fixpoint dedup_inner (threshold : float) (i : nat) (mi : Memory)
         (js : list (nat * Memory)) (remove : gset nat) : gset nat :=
  match js with
  | [] => remove
  | (j, mj) :: rest =>
      if bool_decide (j ∈ remove) then dedup_inner threshold i mi rest remove
      else
        let sim := cosineSimilarity (embedding mi) (embedding mj) in
        if JS.gt sim threshold then
          if JS.ge (score mi) (score mj)
          then dedup_inner threshold i mi rest ({[j]} ∪ remove)
          else {[i]} ∪ remove
        else dedup_inner threshold i mi rest remove
  end.

(** The outer loop [for (i = 0; ...)]. *)
Fixpoint dedup_outer (threshold : float) (ims : list (nat * Memory))
         (remove : gset nat) : gset nat :=
  match ims with
  | [] => remove
  | (i, mi) :: rest =>
      if bool_decide (i ∈ remove) then dedup_outer threshold rest remove
      else dedup_outer threshold rest (dedup_inner threshold i mi rest remove)
  end.

(** [xs.filter((_, i) => !remove.has(i))]. *)
Definition drop_indices {A : Type} (remove : gset nat) (xs : list A) : list A :=
  snd <$> List.filter (λ p, negb (bool_decide (fst p ∈ remove))) (indexed xs).

Definition deduplicate (memories : list Memory) (threshold : option float)
  : list Memory * nat :=
  let threshold := default 0.92%float threshold in
  if length memories <? 2 then (memories, 0)
  else
    let remove := dedup_outer threshold (indexed memories) ∅ in
    (drop_indices remove memories, size remove).

(** ** Cluster *)

Definition is_candidate (m : Memory) : bool :=
  bool_decide (tier m = Warm) || bool_decide (tier m = Cold).

Definition candidates_of (memories : list Memory) : list (nat * Memory) :=
  List.filter (λ c, is_candidate (snd c)) (indexed memories).

(** The inner loop over all candidates for one seed. *)
Fixpoint cluster_grow (threshold : float) (seed : Memory)
         (others : list (nat * Memory)) (group : list nat) (assigned : gset nat)
  : list nat * gset nat :=
  match others with
  | [] => (group, assigned)
  | (otherIdx, other) :: rest =>
      if bool_decide (otherIdx ∈ assigned)
      then cluster_grow threshold seed rest group assigned
      else if JS.ge (cosineSimilarity (embedding seed) (embedding other)) threshold
      then cluster_grow threshold seed rest (group ++ [otherIdx]) ({[otherIdx]} ∪ assigned)
      else cluster_grow threshold seed rest group assigned
  end.

(** [for (const idx of group) assigned.delete(idx)]. *)
Definition release (group : list nat) (assigned : gset nat) : gset nat :=
  foldl (λ s idx, s ∖ {[idx]}) assigned group.

(** The outer loop over the seeds; [candidates] is the whole candidate
    array, scanned again for every seed. *)
Fixpoint cluster_seeds (cfg : RequiredConfig) (candidates seeds : list (nat * Memory))
         (assigned : gset nat) (clusters : list (list nat)) : list (list nat) :=
  match seeds with
  | [] => clusters
  | (seedIdx, seed) :: rest =>
      if bool_decide (seedIdx ∈ assigned)
      then cluster_seeds cfg candidates rest assigned clusters
      else
        let '(group, assigned1) :=
          cluster_grow (r_clusterThreshold cfg) seed candidates
                       [seedIdx] ({[seedIdx]} ∪ assigned) in
        if (r_minClusterSize cfg <=? Z.of_nat (length group))%Z
        then cluster_seeds cfg candidates rest assigned1 (clusters ++ [group])
        else cluster_seeds cfg candidates rest (release group assigned1) clusters
  end.

Definition cluster (memories : list Memory) (config : ConsolidateConfig)
  : list (list nat) :=
  let cfg := merge_config DEFAULTS config in
  let candidates := candidates_of memories in
  if (Z.of_nat (length candidates) <? r_minClusterSize cfg)%Z then []
  else cluster_seeds cfg candidates candidates ∅ [].

(** ** Forget *)

Definition forget (memories : list Memory) (queryEmbedding : list float)
           (threshold : option float) : list Memory * nat :=
  let threshold := default 0.7%float threshold in
  let survivors :=
    List.filter (λ m, JS.lt (cosineSimilarity (embedding m) queryEmbedding) threshold)
                memories in
  (survivors, length memories - length survivors).

(** ** Merge coordinator ([summarizeClusters]) *)

(** The mutable locals of [summarizeClusters]. *)
Record MergeState : Type := mkMerge {
  result : list Memory;
  toRemove : gset nat;
  totalMerged : nat;
}.

(** [group.reduce((a, b) => sa >= sb ? a : b)] with no initial value:
    [None] is the TypeError thrown on an empty array.  Each index travels
    with the record [memories[i]] it denotes. *)
Definition pick (a b : nat * Memory) : nat * Memory :=
  if JS.ge (score (snd a)) (score (snd b)) then a else b.

Definition reduce_best (group : list (nat * Memory)) : option (nat * Memory) :=
  match group with
  | [] => None
  | first :: rest => Some (foldl pick first rest)
  end.

(** [for (const idx of group) if (idx !== best) toRemove.add(idx)]. *)
Definition mark_others (best : nat) (group : list nat) (toRemove : gset nat) : gset nat :=
  foldl (λ s idx, if bool_decide (idx ≠ best) then {[idx]} ∪ s else s) toRemove group.

(** The object written to [result[bestInResult]]. *)
Definition consolidated (r : Memory) (summary : string) (importances : list float)
           (groupSize : nat) (iso : string) : Memory :=
  mkMemory (id r) summary (embedding r)
           (JS.array_from_set (tags r ++ ["consolidated"]))
           (JS.Math_max importances) (tier r)
           (createdAt r) (lastAccessed r) (accessCount r) (source r)
           (Some (<["consolidatedAt" := MStr iso]>
                    (<["consolidatedFrom" := MInt (Z.of_nat groupSize)]>
                       (spread (metadata r))))).

(** The part of the loop body inside [try], once the summarizer has
    answered with [summary]. *)
Definition merge_group (memories : list Memory) (group : list nat)
           (recs : list Memory) (summary : string) (st : MergeState) (w : W)
  : MergeState * W :=
  if (String.length summary =? 0) || (String.length summary <? 10) then (st, w)
  else
    match reduce_best (zip group recs) with
    | None => (st, w)
    | Some (best, mbest) =>
        let toRemove1 := mark_others best group (toRemove st) in
        let merged1 := totalMerged st + (length group - 1) in
        match list_find (λ m, id m = id mbest) (result st) with
        | Some (bestInResult, r) =>
            let importances := importance <$> recs in
            let '(iso, w1) := Date_iso clock w in
            let r1 := consolidated r summary importances (length group) iso in
            (mkMerge (<[bestInResult := r1]> (result st)) toRemove1 merged1, w1)
        | None => (mkMerge (result st) toRemove1 merged1, w)
        end
    end.

(** One iteration of [for (const group of clusters)].  [None] is the
    TypeError of [memories[i].content] on an index outside the array,
    which is raised before the [try] block is entered. *)
Definition merge_cluster (summarizer : Summarizer W) (memories : list Memory)
           (group : list nat) (st : MergeState) (w : W) : option MergeState * W :=
  match mapM (λ i, memories !! i) group with
  | None => (None, w)
  | Some recs =>
      let texts := content <$> recs in
      match summarizer texts w with
      | (None, w1) => (Some st, w1)
      | (Some summary, w1) =>
          let '(st1, w2) := merge_group memories group recs summary st w1 in
          (Some st1, w2)
      end
  end.

Fixpoint merge_loop (summarizer : Summarizer W) (memories : list Memory)
         (clusters : list (list nat)) (st : MergeState) (w : W)
  : option MergeState * W :=
  match clusters with
  | [] => (Some st, w)
  | group :: rest =>
      match merge_cluster summarizer memories group st w with
      | (None, w1) => (None, w1)
      | (Some st1, w1) => merge_loop summarizer memories rest st1 w1
      end
  end.

Definition summarizeClusters (memories : list Memory) (clusters : list (list nat))
           (summarizer : Summarizer W) (w : W) : option (list Memory * nat) * W :=
  match merge_loop summarizer memories clusters (mkMerge memories ∅ 0) w with
  | (None, w1) => (None, w1)
  | (Some st, w1) => (Some (drop_indices (toRemove st) (result st), totalMerged st), w1)
  end.

(** ** Archival compactor *)

Definition should_truncate (truncateLength : Z) (m : Memory) : bool :=
  bool_decide (tier m = Archive)
  && (truncateLength <? Z.of_nat (String.length (content m)))%Z
  && negb (JS.includes (tags m) "consolidated").

Definition truncated (truncateLength : Z) (m : Memory) : Memory :=
  mkMemory (id m) (JS.slice0 (content m) truncateLength ++ "...") (embedding m)
           (tags m) (importance m) (tier m)
           (createdAt m) (lastAccessed m) (accessCount m) (source m)
           (Some (<["originalLength" := MInt (Z.of_nat (String.length (content m)))]>
                    (<["truncated" := MBool true]> (spread (metadata m))))).

Fixpoint archive_map (truncateLength : Z) (ms : list Memory) (changed : nat)
  : list Memory * nat :=
  match ms with
  | [] => ([], changed)
  | m :: rest =>
      if should_truncate truncateLength m then
        let '(out, c) := archive_map truncateLength rest (S changed) in
        (truncated truncateLength m :: out, c)
      else
        let '(out, c) := archive_map truncateLength rest changed in
        (m :: out, c)
  end.

Definition archive (memories : list Memory) (truncateLength : Z) : list Memory * nat :=
  if (truncateLength <=? 0)%Z then (memories, 0)
  else archive_map truncateLength memories 0.

(** ** Report assembly and the pipeline *)

Definition bump (c : TierCounts) (t : MemoryTier) : TierCounts :=
  match t with
  | Hot => mkCounts (n_hot c + 1) (n_warm c) (n_cold c) (n_archive c)
  | Warm => mkCounts (n_hot c) (n_warm c + 1) (n_cold c) (n_archive c)
  | Cold => mkCounts (n_hot c) (n_warm c) (n_cold c + 1) (n_archive c)
  | Archive => mkCounts (n_hot c) (n_warm c) (n_cold c) (n_archive c + 1)
  end.

Definition countByTier (memories : list Memory) : TierCounts :=
  foldl (λ c m, bump c (tier m)) (mkCounts 0 0 0 0) memories.

(** A fully resolved configuration passed where an optional one is
    expected. *)
Definition as_config (c : RequiredConfig) : ConsolidateConfig :=
  mkConfig (Some (r_deduplicateThreshold c)) (Some (r_clusterThreshold c))
           (Some (r_minClusterSize c)) (Some (r_hotDays c)) (Some (r_warmDays c))
           (Some (r_coldDays c)) (Some (r_archiveTruncateLength c)).

(** Phases 3 and 4, run only when a summarizer is supplied.  The result
    is the working collection with [clustersFound] and [summarized]. *)
Definition cluster_and_summarize (current : list Memory) (cfg : RequiredConfig)
           (summarizer : option (Summarizer W)) (w : W)
  : option (list Memory * nat * nat) * W :=
  match summarizer with
  | None => (Some (current, 0, 0), w)
  | Some s =>
      let clusters := cluster current (as_config cfg) in
      if 0 <? length clusters then
        match summarizeClusters current clusters s w with
        | (None, w1) => (None, w1)
        | (Some (ms, merged), w1) => (Some (ms, length clusters, merged), w1)
        end
      else (Some (current, length clusters, 0), w)
  end.

(** [None] is a rejected promise. *)
Definition consolidate (memories : list Memory) (config : ConsolidateConfig)
           (summarizer : option (Summarizer W)) (w : W)
  : option (list Memory * ConsolidationReport) * W :=
  let cfg := merge_config DEFAULTS config in
  let '(start, w) := Date_now clock w in
  let before := countByTier memories in
  (* memories.map(m => ({ ...m })): a copy with the same values *)
  let current := memories in
  let '(decayResult, w) := decay current (as_config cfg) w in
  let current := fst decayResult in
  let dedupResult := deduplicate current (Some (r_deduplicateThreshold cfg)) in
  let current := fst dedupResult in
  match cluster_and_summarize current cfg summarizer w with
  | (None, w) => (None, w)
  | (Some (current, clustersFound, summarized), w) =>
      let archiveResult := archive current (r_archiveTruncateLength cfg) in
      let current := fst archiveResult in
      let after := countByTier current in
      let '(stamp, w) := Date_iso clock w in
      let '(finish, w) := Date_now clock w in
      (Some (current,
             mkReport stamp (finish - start)%float
                      (mkSnapshot (length memories) before)
                      (mkSnapshot (length current) after)
                      (snd decayResult) (snd dedupResult)
                      clustersFound summarized (snd archiveResult)), w)
  end.

End Phases.

(** * Verification *)

(** ** IEEE comparisons, through the specification of binary64

    Away from NaN the comparisons of binary64 are the lexicographic order
    on a key: the class of the number, then its exponent, then its
    mantissa, the last two negated for negative numbers. *)

Definition sf_key (x : spec_float) : Z * Z * Z :=
  match x with
  | S754_nan => (0, 0, 0)%Z
  | S754_infinity true => (-2, 0, 0)%Z
  | S754_infinity false => (2, 0, 0)%Z
  | S754_zero _ => (0, 0, 0)%Z
  | S754_finite true m e => (-1, - e, Z.neg m)%Z
  | S754_finite false m e => (1, e, Z.pos m)%Z
  end.

Definition key_lt (a b : Z * Z * Z) : Prop :=
  (a.1.1 < b.1.1
   ∨ (a.1.1 = b.1.1 ∧ (a.1.2 < b.1.2 ∨ (a.1.2 = b.1.2 ∧ a.2 < b.2))))%Z.

Definition key_le (a b : Z * Z * Z) : Prop := key_lt a b ∨ a = b.

Definition fkey (x : float) : Z * Z * Z := sf_key (Prim2SF x).

Lemma key_lt_trans a b c : key_lt a b → key_lt b c → key_lt a c.
Proof. destruct a as [[??]?], b as [[??]?], c as [[??]?]. unfold key_lt; simpl. lia. Qed.

Lemma key_le_trans a b c : key_le a b → key_le b c → key_le a c.
Proof.
  intros [H1| ->] [H2| ->]; [left; by eapply key_lt_trans | by left | by left | by right].
Qed.

Lemma key_lt_le_trans a b c : key_lt a b → key_le b c → key_lt a c.
Proof. intros H1 [H2| <-]; [by eapply key_lt_trans | done]. Qed.

Lemma key_le_lt_trans a b c : key_le a b → key_lt b c → key_lt a c.
Proof. intros [H1| ->] H2; [by eapply key_lt_trans | done]. Qed.

Lemma key_lt_irrefl a : ¬ key_lt a a.
Proof. destruct a as [[??]?]. unfold key_lt; simpl. lia. Qed.

Lemma key_total a b : key_le a b ∨ key_lt b a.
Proof.
  destruct a as [[a1 a2] a3], b as [[b1 b2] b3]. unfold key_le, key_lt; simpl.
  destruct (Z.lt_trichotomy a1 b1) as [?|[->|?]]; [lia| |lia].
  destruct (Z.lt_trichotomy a2 b2) as [?|[->|?]]; [lia| |lia].
  destruct (Z.lt_trichotomy a3 b3) as [?|[->|?]]; [lia| |lia].
  left. by right.
Qed.

Lemma SFcompare_key (x y : spec_float) :
  x ≠ S754_nan → y ≠ S754_nan →
  match SFcompare x y with
  | Some Lt => key_lt (sf_key x) (sf_key y)
  | Some Eq => sf_key x = sf_key y
  | Some Gt => key_lt (sf_key y) (sf_key x)
  | None => False
  end.
Proof.
  intros Hx Hy.
  destruct x as [sx|sx| |sx mx ex], y as [sy|sy| |sy my ey]; try done;
    try (destruct sx; try destruct sy; simpl; unfold key_lt; simpl; lia || done).
  destruct sx, sy; simpl; try (unfold key_lt; simpl; lia);
    destruct (Z.compare_spec ex ey) as [->|?|?];
    try (unfold key_lt; simpl; lia);
    change (Pos.compare_cont Eq mx my) with (Pos.compare mx my);
    destruct (Pos.compare_spec mx my) as [->|?|?]; simpl;
    try done; unfold key_lt; simpl; lia.
Qed.

Lemma is_nan_spec (x : float) : is_nan x = false ↔ Prim2SF x ≠ S754_nan.
Proof.
  unfold is_nan. rewrite FloatAxioms.eqb_spec, negb_false_iff. unfold SFeqb. split.
  - intros H E. by rewrite E in H.
  - intros Hx. pose proof (SFcompare_key _ _ Hx Hx) as Hc.
    destruct (SFcompare _ _) as [[| |]|]; try done; by apply key_lt_irrefl in Hc.
Qed.

Lemma ltb_key (x y : float) :
  is_nan x = false → is_nan y = false →
  (x <? y)%float = true ↔ key_lt (fkey x) (fkey y).
Proof.
  rewrite !is_nan_spec, FloatAxioms.ltb_spec. unfold SFltb, fkey. intros Hx Hy.
  pose proof (SFcompare_key _ _ Hx Hy) as Hc.
  destruct (SFcompare _ _) as [[| |]|]; try done; split; try done.
  - intros H. rewrite Hc in H. by apply key_lt_irrefl in H.
  - intros H. by destruct (key_lt_irrefl _ (key_lt_trans _ _ _ H Hc)).
Qed.

Lemma leb_key (x y : float) :
  is_nan x = false → is_nan y = false →
  (x <=? y)%float = true ↔ key_le (fkey x) (fkey y).
Proof.
  rewrite !is_nan_spec, FloatAxioms.leb_spec. unfold SFleb, fkey. intros Hx Hy.
  pose proof (SFcompare_key _ _ Hx Hy) as Hc.
  destruct (SFcompare _ _) as [[| |]|]; try done; split; try done.
  - by right.
  - by left.
  - intros [H|H].
    + by destruct (key_lt_irrefl _ (key_lt_trans _ _ _ H Hc)).
    + rewrite H in Hc. by apply key_lt_irrefl in Hc.
Qed.

Lemma ltb_not_nan (x y : float) :
  (x <? y)%float = true → is_nan x = false ∧ is_nan y = false.
Proof.
  rewrite FloatAxioms.ltb_spec, !is_nan_spec. unfold SFltb. intros H.
  split; intros E; rewrite E in H; simpl in H; [done|].
  by destruct (Prim2SF x).
Qed.

Lemma leb_not_nan (x y : float) :
  (x <=? y)%float = true → is_nan x = false ∧ is_nan y = false.
Proof.
  rewrite FloatAxioms.leb_spec, !is_nan_spec. unfold SFleb. intros H.
  split; intros E; rewrite E in H; simpl in H; [done|].
  by destruct (Prim2SF x).
Qed.

(** The facts the keep-the-best rules rest on. *)
Lemma ge_trans (a b c : float) :
  JS.ge a b = true → JS.ge b c = true → JS.ge a c = true.
Proof.
  unfold JS.ge. intros H1 H2.
  destruct (leb_not_nan _ _ H1) as [Hb Ha], (leb_not_nan _ _ H2) as [Hc _].
  rewrite leb_key in * by done. by eapply key_le_trans.
Qed.

Lemma ge_total (a b : float) :
  is_nan a = false → is_nan b = false → JS.ge a b = false → JS.gt b a = true.
Proof.
  unfold JS.ge, JS.gt. intros Ha Hb H.
  rewrite ltb_key by done. destruct (key_total (fkey b) (fkey a)) as [Hle|?]; [|done].
  apply leb_key in Hle; [congruence|done..].
Qed.

Lemma gt_ge (a b : float) : JS.gt a b = true → JS.ge a b = true.
Proof.
  unfold JS.ge, JS.gt. intros H. destruct (ltb_not_nan _ _ H) as [Hb Ha].
  rewrite ltb_key in H by done. rewrite leb_key by done. by left.
Qed.

Lemma gt_false_ge (a b : float) :
  is_nan a = false → is_nan b = false → JS.gt a b = false → JS.ge b a = true.
Proof.
  unfold JS.ge, JS.gt. intros Ha Hb H. rewrite leb_key by done.
  destruct (key_total (fkey a) (fkey b)) as [|Hlt]; [done|].
  apply ltb_key in Hlt; [congruence|done..].
Qed.

Lemma gt_not_ge (a b : float) : JS.gt a b = true → JS.ge b a = false.
Proof.
  unfold JS.ge, JS.gt. intros H. destruct (ltb_not_nan _ _ H) as [Hb Ha].
  apply ltb_key in H; [|done..]. apply not_true_is_false. intros Hle.
  apply leb_key in Hle; [|done..].
  by destruct (key_lt_irrefl _ (key_lt_le_trans _ _ _ H Hle)).
Qed.

Lemma ge_refl (a : float) : is_nan a = false → JS.ge a a = true.
Proof. intros Ha. unfold JS.ge. rewrite leb_key by done. by right. Qed.

Lemma prim_neg_infinity : Prim2SF neg_infinity = S754_infinity true.
Proof. reflexivity. Qed.

Lemma prim_zero : Prim2SF 0%float = S754_zero false.
Proof. reflexivity. Qed.

Lemma is_pos_zero_spec (x : float) :
  JS.is_pos_zero x = true → Prim2SF x = S754_zero false.
Proof.
  unfold JS.is_pos_zero. rewrite classify_spec. unfold SF64classify, SFclassify.
  destruct (Prim2SF x) as [[|]|[|]| |[|] m e]; try done; by destruct (_ =? _)%Z.
Qed.

Lemma is_neg_zero_spec (x : float) :
  JS.is_neg_zero x = true → Prim2SF x = S754_zero true.
Proof.
  unfold JS.is_neg_zero. rewrite classify_spec. unfold SF64classify, SFclassify.
  destruct (Prim2SF x) as [[|]|[|]| |[|] m e]; try done; by destruct (_ =? _)%Z.
Qed.

Lemma add_not_nan (a b : float) : is_nan (a + b)%float = false → is_nan a = false.
Proof.
  rewrite !is_nan_spec, add_spec. intros H E. apply H. by rewrite E.
Qed.

(** [Math.max] of numbers none of which is NaN is one of them, and no
    other exceeds it. *)
Lemma max_from_spec (h : float) (xs : list float) :
  is_nan h = false → Forall (λ x, is_nan x = false) xs →
  is_nan (JS.max_from h xs) = false
  ∧ JS.ge (JS.max_from h xs) h = true
  ∧ Forall (λ x, JS.ge (JS.max_from h xs) x = true) xs
  ∧ JS.max_from h xs ∈ h :: xs.
Proof.
  intros Hh Hxs. revert h Hh. induction Hxs as [|x xs Hx _ IH]; intros h Hh; simpl.
  { split; [done|]. split; [by apply ge_refl|]. split; [done|]. apply list_elem_of_here. }
  rewrite Hx.
  assert (∀ r, is_nan r = false ∧ JS.ge r x = true
               ∧ Forall (λ y, JS.ge r y = true) xs ∧ r ∈ x :: xs →
               JS.ge x h = true →
               is_nan r = false ∧ JS.ge r h = true
               ∧ Forall (λ y, JS.ge r y = true) (x :: xs) ∧ r ∈ h :: x :: xs) as Hnew.
  { intros r (H1 & H2 & H3 & H4) Hxh. split; [done|].
    split; [by eapply ge_trans|]. split; [by constructor|].
    by apply list_elem_of_further. }
  destruct (JS.is_pos_zero x && JS.is_neg_zero h) eqn:Hz.
  { apply Hnew; [by apply IH|]. apply andb_true_iff in Hz as [Hz1 Hz2].
    unfold JS.ge. rewrite FloatAxioms.leb_spec.
    by rewrite (is_pos_zero_spec _ Hz1), (is_neg_zero_spec _ Hz2). }
  destruct (JS.gt x h) eqn:Hgt.
  { apply Hnew; [by apply IH|]. by apply gt_ge. }
  destruct (IH h Hh) as (H1 & H2 & H3 & H4). split; [done|]. split; [done|].
  split.
  - constructor; [|done]. eapply ge_trans; [exact H2|]. by apply gt_false_ge.
  - apply elem_of_cons in H4 as [->|H4]; [apply list_elem_of_here|].
    by do 2 apply list_elem_of_further.
Qed.

Lemma ge_neg_infinity (x : float) :
  is_nan x = false → JS.ge neg_infinity x = true → x = neg_infinity.
Proof.
  intros Hx H. unfold JS.ge in H. rewrite leb_key in H by done.
  apply Prim2SF_inj. rewrite prim_neg_infinity.
  apply is_nan_spec in Hx. unfold fkey in H. rewrite prim_neg_infinity in H.
  destruct (Prim2SF x) as [[|]|[|]| |[|] m e]; try done;
    destruct H as [H|H]; try done; unfold key_lt in H; simpl in H; lia.
Qed.

Lemma Math_max_spec (xs : list float) :
  xs ≠ [] → Forall (λ x, is_nan x = false) xs →
  Forall (λ x, JS.ge (JS.Math_max xs) x = true) xs ∧ JS.Math_max xs ∈ xs.
Proof.
  intros Hne Hxs. unfold JS.Math_max.
  destruct (max_from_spec neg_infinity xs) as (H1 & H2 & H3 & H4); [done..|].
  split; [done|]. apply elem_of_cons in H4 as [E|?]; [|done].
  destruct xs as [|x xs]; [done|].
  inversion Hxs as [|? ? Hx _]; subst. inversion H3 as [|? ? Hge _]; subst.
  rewrite E in Hge. rewrite E, <- (ge_neg_infinity x Hx Hge).
  apply list_elem_of_here.
Qed.

Lemma prim_infinity : Prim2SF infinity = S754_infinity false.
Proof. reflexivity. Qed.

(** [Math.min], likewise. *)
Lemma min_from_spec (l : float) (xs : list float) :
  is_nan l = false → Forall (λ x, is_nan x = false) xs →
  is_nan (JS.min_from l xs) = false
  ∧ JS.ge l (JS.min_from l xs) = true
  ∧ Forall (λ x, JS.ge x (JS.min_from l xs) = true) xs
  ∧ JS.min_from l xs ∈ l :: xs.
Proof.
  intros Hl Hxs. revert l Hl. induction Hxs as [|x xs Hx _ IH]; intros l Hl; simpl.
  { split; [done|]. split; [by apply ge_refl|]. split; [done|]. apply list_elem_of_here. }
  rewrite Hx.
  assert (∀ r, is_nan r = false ∧ JS.ge x r = true
               ∧ Forall (λ y, JS.ge y r = true) xs ∧ r ∈ x :: xs →
               JS.ge l x = true →
               is_nan r = false ∧ JS.ge l r = true
               ∧ Forall (λ y, JS.ge y r = true) (x :: xs) ∧ r ∈ l :: x :: xs) as Hnew.
  { intros r (H1 & H2 & H3 & H4) Hlx. split; [done|].
    split; [by eapply ge_trans|]. split; [by constructor|].
    by apply list_elem_of_further. }
  destruct (JS.is_neg_zero x && JS.is_pos_zero l) eqn:Hz.
  { apply Hnew; [by apply IH|]. apply andb_true_iff in Hz as [Hz1 Hz2].
    unfold JS.ge. rewrite FloatAxioms.leb_spec.
    by rewrite (is_neg_zero_spec _ Hz1), (is_pos_zero_spec _ Hz2). }
  destruct (JS.lt x l) eqn:Hlt.
  { apply Hnew; [by apply IH|]. by apply gt_ge. }
  destruct (IH l Hl) as (H1 & H2 & H3 & H4). split; [done|]. split; [done|].
  split.
  - constructor; [|done]. eapply ge_trans; [|exact H2]. by apply gt_false_ge.
  - apply elem_of_cons in H4 as [->|H4]; [apply list_elem_of_here|].
    by do 2 apply list_elem_of_further.
Qed.

Lemma ge_infinity (x : float) :
  is_nan x = false → JS.ge x infinity = true → x = infinity.
Proof.
  intros Hx H. unfold JS.ge in H. rewrite leb_key in H by done.
  apply Prim2SF_inj. rewrite prim_infinity.
  apply is_nan_spec in Hx. unfold fkey in H. rewrite prim_infinity in H.
  destruct (Prim2SF x) as [[|]|[|]| |[|] m e]; try done;
    destruct H as [H|H]; try done; unfold key_lt in H; simpl in H; lia.
Qed.

Lemma Math_min_spec (xs : list float) :
  xs ≠ [] → Forall (λ x, is_nan x = false) xs →
  Forall (λ x, JS.ge x (JS.Math_min xs) = true) xs ∧ JS.Math_min xs ∈ xs.
Proof.
  intros Hne Hxs. unfold JS.Math_min.
  destruct (min_from_spec infinity xs) as (H1 & H2 & H3 & H4); [done..|].
  split; [done|]. apply elem_of_cons in H4 as [E|?]; [|done].
  destruct xs as [|x xs]; [done|].
  inversion Hxs as [|? ? Hx _]; subst. inversion H3 as [|? ? Hge _]; subst.
  rewrite E in Hge. rewrite E, <- (ge_infinity x Hx Hge).
  apply list_elem_of_here.
Qed.

(** [reduce] with the keep-the-best callback returns the first element
    whose score no other element exceeds. *)
Lemma foldl_pick_best (first : nat * Memory) (rest : list (nat * Memory)) :
  Forall (λ p, is_nan (score (snd p)) = false) (first :: rest) →
  ∃ p, (first :: rest) !! p = Some (foldl pick first rest)
       ∧ (∀ q x, (first :: rest) !! q = Some x →
                 JS.ge (score (snd (foldl pick first rest))) (score (snd x)) = true)
       ∧ (∀ q x, q < p → (first :: rest) !! q = Some x →
                 JS.gt (score (snd (foldl pick first rest))) (score (snd x)) = true).
Proof.
  induction rest as [|b rest IH] using rev_ind; intros Hall.
  { exists 0. simpl. split; [done|]. split.
    - intros [|q] x; [|done]. intros [= <-]. apply ge_refl. by inversion Hall.
    - intros q x ?. lia. }
  rewrite app_comm_cons in Hall. apply Forall_app in Hall as [Hall Hb].
  rewrite Forall_singleton in Hb.
  destruct (IH Hall) as (p & Hp & Hge & Hgt). clear IH.
  rewrite foldl_snoc. set (cur := foldl pick first rest) in *.
  assert (is_nan (score (snd cur)) = false) as Hcur.
  { eapply Forall_forall in Hall; [exact Hall|]. by eapply list_elem_of_lookup_2. }
  assert (∀ q x, (first :: rest ++ [b]) !! q = Some x →
                 (q < length (first :: rest) ∧ (first :: rest) !! q = Some x)
                 ∨ (q = length (first :: rest) ∧ x = b)) as Hsplit.
  { intros q x. rewrite app_comm_cons. intros Hq.
    apply lookup_snoc_Some in Hq as [[? ?]|[? ?]]; auto. }
  assert (pick cur b = if JS.ge (score (snd cur)) (score (snd b)) then cur else b)
    as -> by done.
  destruct (JS.ge (score (snd cur)) (score (snd b))) eqn:Hc.
  - exists p. split; [|split].
    + rewrite app_comm_cons. apply lookup_app_l_Some. exact Hp.
    + intros q x Hq. destruct (Hsplit q x Hq) as [[_ Hq']|[_ ->]]; [by eapply Hge|done].
    + intros q x Hlt Hq. destruct (Hsplit q x Hq) as [[_ Hq']|[-> ->]]; [by eapply Hgt|].
      apply lookup_lt_Some in Hp. lia.
  - pose proof (ge_total _ _ Hcur Hb Hc) as Hbc.
    exists (length (first :: rest)). split; [|split].
    + rewrite app_comm_cons. apply list_lookup_middle. done.
    + intros q x Hq. destruct (Hsplit q x Hq) as [[_ Hq']|[_ ->]]; [|by apply ge_refl].
      eapply ge_trans; [apply gt_ge, Hbc|]. by eapply Hge.
    + intros q x Hlt Hq. destruct (Hsplit q x Hq) as [[_ Hq']|[-> _]]; [|lia].
      assert (is_nan (score (snd x)) = false) as Hx.
      { eapply Forall_forall in Hall; [exact Hall|]. by eapply list_elem_of_lookup_2. }
      destruct (JS.ge (score (snd x)) (score (snd b))) eqn:Hxb; [|by apply ge_total].
      rewrite (ge_trans _ _ _ (Hge q x Hq') Hxb) in Hc. done.
Qed.

(** ** Similarity metric *)

Lemma SFmul_comm (x y : spec_float) : SF64mul x y = SF64mul y x.
Proof.
  unfold SF64mul.
  destruct x as [sx|sx| |sx mx ex], y as [sy|sy| |sy my ey]; simpl;
    try reflexivity; try (by rewrite xorb_comm).
  by rewrite xorb_comm, Pos.mul_comm, Z.add_comm.
Qed.

Lemma float_mul_comm (x y : float) : (x * y)%float = (y * x)%float.
Proof. apply Prim2SF_inj. rewrite !mul_spec. apply SFmul_comm. Qed.

(** The three accumulators of the loop, each on its own. *)
Definition dot_product (a b : list float) : float :=
  foldl (λ acc p, (acc + fst p * snd p)%float) 0%float (zip a b).

Definition norm2 (a : list float) : float :=
  foldl (λ acc x, (acc + x * x)%float) 0%float a.

(** The norm of a vector as the code computes it. *)
Definition norm (a : list float) : float := sqrt (norm2 a).

Lemma cosine_loop_folds ab dot normA normB :
  cosine_loop ab dot normA normB
  = (foldl (λ acc p, (acc + fst p * snd p)%float) dot ab,
     foldl (λ acc p, (acc + fst p * fst p)%float) normA ab,
     foldl (λ acc p, (acc + snd p * snd p)%float) normB ab).
Proof.
  revert dot normA normB. induction ab as [|[x y] ab IH]; intros; simpl; [done|].
  apply IH.
Qed.

Lemma foldl_zip_fst (a b : list float) acc :
  length a = length b →
  foldl (λ acc p, (acc + fst p * fst p)%float) acc (zip a b)
  = foldl (λ acc x, (acc + x * x)%float) acc a.
Proof.
  revert b acc. induction a as [|x a IH]; intros [|y b] acc Hlen; simpl in *;
    try done. apply IH. lia.
Qed.

Lemma foldl_zip_snd (a b : list float) acc :
  length a = length b →
  foldl (λ acc p, (acc + snd p * snd p)%float) acc (zip a b)
  = foldl (λ acc x, (acc + x * x)%float) acc b.
Proof.
  revert b acc. induction a as [|x a IH]; intros [|y b] acc Hlen; simpl in *;
    try done. apply IH. lia.
Qed.

Lemma cosineSimilarity_unfold (a b : list float) :
  length a = length b → a ≠ [] →
  cosineSimilarity a b
  = if JS.strict_eq (norm a * norm b)%float 0%float then 0%float
    else (dot_product a b / (norm a * norm b))%float.
Proof.
  intros Hlen Hne. unfold cosineSimilarity.
  rewrite Hlen, Nat.eqb_refl. simpl negb.
  destruct (Nat.eqb_spec (length b) 0) as [E|_].
  { rewrite <- Hlen in E. by destruct a. }
  simpl orb. cbv iota.
  rewrite cosine_loop_folds, foldl_zip_fst, foldl_zip_snd by done.
  reflexivity.
Qed.

Lemma cosineSimilarity_degenerate (a b : list float) :
  length a ≠ length b ∨ a = [] ∨ b = [] → cosineSimilarity a b = 0%float.
Proof.
  intros H. unfold cosineSimilarity.
  destruct (Nat.eqb_spec (length a) (length b)) as [E|_]; [|done].
  destruct (Nat.eqb_spec (length a) 0) as [_|Hn]; [done|].
  destruct H as [?|[->| ->]]; [done|done|]. simpl in E. lia.
Qed.

Lemma dot_product_comm (a b : list float) : dot_product a b = dot_product b a.
Proof.
  unfold dot_product. generalize 0%float.
  revert b. induction a as [|x a IH]; intros [|y b] acc; simpl; try done.
  rewrite (float_mul_comm x y). apply IH.
Qed.

Lemma cosineSimilarity_comm (a b : list float) :
  cosineSimilarity a b = cosineSimilarity b a.
Proof.
  destruct (decide (length a = length b ∧ a ≠ [])) as [[Hlen Hne]|Hdeg].
  - rewrite (cosineSimilarity_unfold a b), (cosineSimilarity_unfold b a); try done.
    + by rewrite dot_product_comm, (float_mul_comm (norm a)).
    + intros ->. by destruct a.
  - rewrite !cosineSimilarity_degenerate; [done| |].
    + destruct (decide (length b = length a)) as [E|?]; [|by left].
      right. left. destruct b; [done|].
      exfalso. apply Hdeg. split; [done|]. intros ->. done.
    + destruct (decide (length a = length b)) as [E|?]; [|by left].
      right. left. destruct a; [done|]. exfalso. by apply Hdeg.
Qed.

(** A number [=== 0] is one of the two zeros; a finite number is a zero
    or has a mantissa. *)
Lemma strict_eq_zero (x : float) :
  JS.strict_eq x 0%float = true ↔ ∃ s, Prim2SF x = S754_zero s.
Proof.
  unfold JS.strict_eq. rewrite FloatAxioms.eqb_spec, prim_zero. unfold SFeqb.
  destruct (Prim2SF x) as [[|]|[|]| |[|] m e]; simpl; split; try done;
    try (by intros [? ?]); by eexists.
Qed.

Lemma is_finite_spec (x : float) :
  is_finite x = true →
  (∃ s, Prim2SF x = S754_zero s) ∨ (∃ s m e, Prim2SF x = S754_finite s m e).
Proof.
  unfold is_finite. rewrite negb_true_iff, orb_false_iff. intros [Hn Hi].
  apply is_nan_spec in Hn. unfold is_infinity in Hi.
  rewrite FloatAxioms.eqb_spec, abs_spec in Hi.
  destruct (Prim2SF x) as [s|s| |s m e]; [by left; eexists | |done|by right; eexists _, _, _].
  by destruct s.
Qed.

Lemma zero_norm_denominator (x y : float) :
  JS.strict_eq x 0%float = true → is_finite y = true →
  JS.strict_eq (x * y)%float 0%float = true.
Proof.
  intros [sx Hx]%strict_eq_zero Hy%is_finite_spec.
  apply strict_eq_zero. rewrite mul_spec, Hx. unfold SF64mul.
  destruct Hy as [[sy ->]|(sy & m & e & ->)]; simpl; by eexists.
Qed.

(** C8, as the code has it. [similarity(a, b)] and [similarity(b, a)]
    are the same number, and the similarity is exactly 0 when the lengths
    differ, when either vector is empty, and when either vector has zero
    norm while the norm of the other is finite (neither NaN nor
    infinite). *)
Theorem cosineSimilarity_properties (a b : list float) :
  cosineSimilarity a b = cosineSimilarity b a
  ∧ (length a ≠ length b → cosineSimilarity a b = 0%float)
  ∧ (a = [] ∨ b = [] → cosineSimilarity a b = 0%float)
  ∧ (length a = length b →
     (JS.strict_eq (norm a) 0%float = true ∧ is_finite (norm b) = true)
     ∨ (JS.strict_eq (norm b) 0%float = true ∧ is_finite (norm a) = true) →
     cosineSimilarity a b = 0%float).
Proof.
  split; [apply cosineSimilarity_comm|]. split; [|split].
  - intros H. apply cosineSimilarity_degenerate. by left.
  - intros H. apply cosineSimilarity_degenerate. by right.
  - intros Hlen Hz. destruct (decide (a = [])) as [->|Hne].
    { apply cosineSimilarity_degenerate. right. by left. }
    rewrite (cosineSimilarity_unfold a b) by done.
    destruct Hz as [[Ha Hb]|[Hb Ha]].
    + by rewrite zero_norm_denominator.
    + by rewrite float_mul_comm, zero_norm_denominator.
Qed.

(** C8 as stated fails: the vector [0] has zero norm, yet against
    [Infinity] the denominator [0 * Infinity] is NaN, not 0, and the
    result is NaN. *)
Lemma cosineSimilarity_zero_norm_nan :
  JS.strict_eq (norm [0%float]) 0%float = true
  ∧ length [0%float] = length [infinity]
  ∧ is_nan (cosineSimilarity [0%float] [infinity]) = true
  ∧ cosineSimilarity [0%float] [infinity] ≠ 0%float.
Proof.
  split; [reflexivity|]. split; [reflexivity|]. split; [reflexivity|].
  intros E. assert (is_nan (cosineSimilarity [0%float] [infinity]) = is_nan 0%float) as H
    by by rewrite E.
  vm_compute in H. discriminate.
Qed.

(** ** Decay *)

Section DecayFacts.
Context {W : Type} (clock : Clock W).

(** What the [map] callback of [decay] returns for one record. *)
Definition decay_one (now : float) (cfg : RequiredConfig) (m : Memory) : Memory :=
  if bool_decide (decay_tier clock now cfg m ≠ tier m)
  then with_tier m (decay_tier clock now cfg m) else m.

Definition tier_moves (now : float) (cfg : RequiredConfig) (m : Memory) : bool :=
  bool_decide (decay_tier clock now cfg m ≠ tier m).

(** The transition rule as the specification words it: by cases on the
    record's current tier. *)
Definition spec_transition (cfg : RequiredConfig) (age : float) (t : MemoryTier)
  : MemoryTier :=
  match t with
  | Hot => if JS.gt age (r_hotDays cfg) then Warm else Hot
  | Warm => if JS.gt age (r_warmDays cfg) then Cold else Warm
  | Cold => if JS.gt age (r_coldDays cfg) then Archive else Cold
  | Archive => Archive
  end.

Lemma decay_map_unfold now cfg ms c :
  decay_map clock now cfg ms c
  = (decay_one now cfg <$> ms, c + length (List.filter (tier_moves now cfg) ms)).
Proof.
  revert c. induction ms as [|m ms IH]; intros c; simpl.
  - f_equal. lia.
  - unfold decay_one, tier_moves at 1.
    destruct (bool_decide (decay_tier clock now cfg m ≠ tier m)) eqn:E;
      rewrite IH; simpl; f_equal; lia.
Qed.

Lemma decay_tier_spec now cfg m :
  decay_tier clock now cfg m = spec_transition cfg (effectiveAge clock now m) (tier m).
Proof.
  unfold decay_tier, spec_transition.
  destruct (tier m); simpl;
    repeat match goal with |- context [if ?b then _ else _] => destruct b end;
    reflexivity.
Qed.

Lemma spec_transition_step cfg age t :
  spec_transition cfg age t = t
  ∨ tier_rank (spec_transition cfg age t) = S (tier_rank t).
Proof.
  destruct t; simpl;
    repeat match goal with |- context [if ?b then _ else _] => destruct b end;
    auto.
Qed.

Lemma with_tier_same m : with_tier m (tier m) = m.
Proof. by destruct m. Qed.

Lemma tier_decay_one now cfg m :
  tier (decay_one now cfg m) = decay_tier clock now cfg m.
Proof.
  unfold decay_one. case_bool_decide as H; [done|]. by symmetry.
Qed.

Lemma decay_one_with_tier now cfg m :
  decay_one now cfg m = with_tier m (decay_tier clock now cfg m).
Proof.
  unfold decay_one. case_bool_decide as H; [done|].
  by rewrite H, with_tier_same.
Qed.

Lemma decay_unfold memories config w :
  decay clock memories config w
  = let now := fst (Date_now clock w) in
    let cfg := merge_config DEFAULTS config in
    ((decay_one now cfg <$> memories,
      length (List.filter (tier_moves now cfg) memories)),
     snd (Date_now clock w)).
Proof.
  unfold decay. destruct (Date_now clock w) as [now w1]; simpl.
  by rewrite decay_map_unfold.
Qed.

Lemma changed_count now cfg ms :
  length (List.filter (tier_moves now cfg) ms)
  = length (List.filter (λ p, bool_decide (tier (fst p) ≠ tier (snd p)))
                        (zip ms (decay_one now cfg <$> ms))).
Proof.
  induction ms as [|m ms IH]; simpl; [done|].
  rewrite tier_decay_one. unfold tier_moves at 1.
  rewrite (bool_decide_ext (tier m ≠ decay_tier clock now cfg m)
                           (decay_tier clock now cfg m ≠ tier m)) by naive_solver.
  destruct (bool_decide _); simpl; by rewrite IH.
Qed.

(** C1. Decay is tier-monotonic and single-step: every output record
    keeps its input tier or moves to the immediately next tier in
    hot < warm < cold < archive, whatever the effective age, and an
    archive record stays archive. *)
Theorem decay_single_step (memories : list Memory) (config : ConsolidateConfig) (w : W) :
  Forall2 (λ m m',
             (tier m' = tier m ∨ tier_rank (tier m') = S (tier_rank (tier m)))
             ∧ (tier m = Archive → tier m' = Archive))
          memories (fst (fst (decay clock memories config w))).
Proof.
  rewrite decay_unfold; simpl.
  apply Forall2_fmap_r, Forall_Forall2_diag, Forall_forall. intros m _.
  simpl. rewrite tier_decay_one, decay_tier_spec. split.
  - apply spec_transition_step.
  - intros ->. reflexivity.
Qed.

(** C6. Decay computes
    effectiveAge = (ageDays - min(accessCount * 0.5, 5)) / (1 + importance * 2)
    with ageDays the age in days since createdAt (the min is the
    smaller of the two numbers), moves hot to warm,
    warm to cold and cold to archive exactly when the effective age
    exceeds the threshold of the record's current tier, leaves the record
    unchanged otherwise, and returns as [changed] the number of records
    whose tier differs between input and output. *)
Theorem decay_rule (memories : list Memory) (config : ConsolidateConfig) (w : W) :
  let now := fst (Date_now clock w) in
  let cfg := merge_config DEFAULTS config in
  let out := fst (decay clock memories config w) in
  (∀ m, effectiveAge clock now m
        = (((now - Date_getTime clock (createdAt m)) / 86400000
            - JS.Math_min [accessCount m * 0.5; 5])
           / (1 + importance m * 2))%float)
  ∧ (∀ m, is_nan (accessCount m * 0.5)%float = false →
          let boost := JS.Math_min [(accessCount m * 0.5)%float; 5%float] in
          JS.ge (accessCount m * 0.5)%float boost = true
          ∧ JS.ge 5%float boost = true
          ∧ (boost = (accessCount m * 0.5)%float ∨ boost = 5%float))
  ∧ Forall2 (λ m m',
               tier m' = spec_transition cfg (effectiveAge clock now m) (tier m)
               ∧ m' = with_tier m (tier m')
               ∧ (tier m' = tier m → m' = m))
            memories (fst out)
  ∧ snd out
    = length (List.filter (λ p, bool_decide (tier (fst p) ≠ tier (snd p)))
                          (zip memories (fst out))).
Proof.
  intros now cfg out. split; [done|]. split.
  { intros m Hm boost.
    destruct (Math_min_spec [(accessCount m * 0.5)%float; 5%float]) as [Hle Hin];
      [done|by repeat constructor|].
    fold boost in Hle, Hin.
    inversion Hle as [|? ? H1 Hle']; subst. inversion Hle' as [|? ? H2 _]; subst.
    split; [done|]. split; [done|].
    apply elem_of_cons in Hin as [?|Hin]; [by left|].
    apply list_elem_of_singleton in Hin. by right. }
  subst out. rewrite decay_unfold; simpl. fold now cfg. split.
  - apply Forall2_fmap_r, Forall_Forall2_diag, Forall_forall. intros m _.
    simpl. rewrite tier_decay_one, <- decay_tier_spec. split; [done|]. split.
    + apply decay_one_with_tier.
    + intros E. rewrite decay_one_with_tier, E. apply with_tier_same.
  - apply changed_count.
Qed.

End DecayFacts.

(** ** Arrays with positions, and removal by index *)

Section Indexed.
Context {A : Type}.
Implicit Types (xs : list A) (R : gset nat).

Definition kept R (p : nat * A) : bool := negb (bool_decide (fst p ∈ R)).

Lemma drop_indices_eq R xs :
  drop_indices R xs = snd <$> List.filter (kept R) (zip (seq 0 (length xs)) xs).
Proof. reflexivity. Qed.

Lemma kept_sublist R k xs :
  (snd <$> List.filter (kept R) (zip (seq k (length xs)) xs)) `sublist_of` xs.
Proof.
  revert k. induction xs as [|x xs IH]; intros k; simpl; [done|].
  destruct (kept R (k, x)); simpl.
  - apply sublist_skip, IH.
  - apply sublist_cons, IH.
Qed.

Lemma drop_indices_sublist R xs : drop_indices R xs `sublist_of` xs.
Proof. apply kept_sublist. Qed.

Lemma kept_length R k xs :
  length (List.filter (kept R) (zip (seq k (length xs)) xs))
  + size (R ∩ set_seq k (length xs)) = length xs.
Proof.
  revert k. induction xs as [|x xs IH]; intros k; simpl.
  - by rewrite intersection_empty_r_L, size_empty.
  - specialize (IH (S k)). unfold kept at 1; simpl.
    case_bool_decide as Hk; simpl.
    + replace (R ∩ ({[k]} ∪ set_seq (S k) (length xs)))
        with ({[k]} ∪ R ∩ set_seq (S k) (length xs)) by set_solver.
      rewrite size_union, size_singleton; [lia|].
      intros i. rewrite elem_of_singleton, elem_of_intersection, elem_of_set_seq. lia.
    + replace (R ∩ ({[k]} ∪ set_seq (S k) (length xs)))
        with (R ∩ set_seq (S k) (length xs)) by set_solver.
      lia.
Qed.

Lemma drop_indices_length R xs :
  (∀ i, i ∈ R → i < length xs) →
  length (drop_indices R xs) + size R = length xs.
Proof.
  intros Hin. rewrite drop_indices_eq, length_fmap.
  pose proof (kept_length R 0 xs) as Hlen.
  replace (R ∩ set_seq 0 (length xs)) with R in Hlen; [done|].
  apply set_eq. intros i. rewrite elem_of_intersection, elem_of_set_seq.
  split; [|tauto]. intros Hi. specialize (Hin i Hi). split; [done|]. lia.
Qed.

Lemma drop_indices_empty xs : drop_indices ∅ xs = xs.
Proof.
  rewrite drop_indices_eq. generalize 0.
  induction xs as [|x xs IH]; intros k; simpl; [done|].
  unfold kept at 1; simpl. rewrite bool_decide_eq_false_2 by set_solver.
  simpl. by rewrite IH.
Qed.

Lemma indexed_lookup xs i x :
  (i, x) ∈ indexed xs ↔ xs !! i = Some x.
Proof.
  unfold indexed. rewrite list_elem_of_lookup. split.
  - intros [k Hk]. apply lookup_zip_with_Some in Hk as (a & b & E & Ha & Hb).
    inversion E; subst. apply lookup_seq in Ha as [-> _]. done.
  - intros Hx. exists i. apply lookup_zip_with_Some. exists i, x.
    split; [done|]. split; [|done]. apply lookup_seq. split; [done|].
    by eapply lookup_lt_Some.
Qed.

Lemma indexed_lt xs i x : (i, x) ∈ indexed xs → i < length xs.
Proof. rewrite indexed_lookup. apply lookup_lt_Some. Qed.

End Indexed.

(** ** Deduplicate *)

Section DedupFacts.
Implicit Types (R : gset nat) (ims : list (nat * Memory)).

(** Every index the loops mark is a position of the array. *)
Definition below (n : nat) R : Prop := ∀ k, k ∈ R → k < n.

Lemma below_add n k R : k < n → below n R → below n ({[k]} ∪ R).
Proof.
  intros Hk HR j. rewrite elem_of_union, elem_of_singleton.
  intros [->|Hj]; [done|]. by apply HR.
Qed.

Lemma dedup_inner_below n t i mi ims R :
  i < n → Forall (λ p, fst p < n) ims → below n R →
  below n (dedup_inner t i mi ims R).
Proof.
  intros Hi Hims. revert R.
  induction Hims as [|[j mj] rest Hj _ IH]; intros R HR; simpl; [done|].
  simpl in Hj.
  repeat match goal with |- context [if ?b then _ else _] => destruct b end;
    auto using below_add.
Qed.

Lemma dedup_outer_below n t ims R :
  Forall (λ p, fst p < n) ims → below n R → below n (dedup_outer t ims R).
Proof.
  intros Hims. revert R.
  induction Hims as [|[i mi] rest Hi Hrest IH]; intros R HR; simpl; [done|].
  destruct (bool_decide (i ∈ R)); [by apply IH|].
  apply IH. by apply dedup_inner_below.
Qed.

Lemma indexed_below {A} (xs : list A) : Forall (λ p, fst p < length xs) (indexed xs).
Proof. apply Forall_forall. intros [i x]. apply indexed_lt. Qed.

Lemma deduplicate_unfold memories threshold :
  2 ≤ length memories →
  deduplicate memories threshold
  = let R := dedup_outer (default 0.92%float threshold) (indexed memories) ∅ in
    (drop_indices R memories, size R).
Proof.
  intros Hn. unfold deduplicate.
  destruct (Nat.ltb_spec (length memories) 2); [lia|done].
Qed.

Lemma deduplicate_small memories threshold :
  length memories < 2 → deduplicate memories threshold = (memories, 0).
Proof.
  intros Hn. unfold deduplicate.
  destruct (Nat.ltb_spec (length memories) 2); [done|lia].
Qed.

Lemma deduplicate_sublist memories threshold :
  fst (deduplicate memories threshold) `sublist_of` memories.
Proof.
  destruct (decide (length memories < 2)) as [Hn|Hn].
  - by rewrite deduplicate_small.
  - rewrite deduplicate_unfold by lia. apply drop_indices_sublist.
Qed.

(** C4. Deduplicate returns the survivors in their original relative
    order, [output.size + removed = input.size], and a collection of
    fewer than two records comes back unchanged with [removed = 0]. *)
Theorem deduplicate_accounting (memories : list Memory) (threshold : option float) :
  let out := deduplicate memories threshold in
  fst out `sublist_of` memories
  ∧ length (fst out) + snd out = length memories
  ∧ (length memories < 2 → out = (memories, 0)).
Proof.
  intros out. subst out. split; [apply deduplicate_sublist|]. split.
  - destruct (decide (length memories < 2)) as [Hn|Hn].
    + rewrite deduplicate_small by done. simpl. lia.
    + rewrite deduplicate_unfold by lia. simpl.
      apply drop_indices_length, dedup_outer_below; [apply indexed_below|].
      intros k Hk. set_solver.
  - apply deduplicate_small.
Qed.

(** ** Forget *)

Lemma filter_sublist {A} (f : A → bool) (xs : list A) :
  List.filter f xs `sublist_of` xs.
Proof.
  induction xs as [|x xs IH]; simpl; [done|].
  destruct (f x); [by apply sublist_skip | by apply sublist_cons].
Qed.

(** C9. Forget returns exactly the input records, in their original
    order, whose similarity to the query embedding is strictly below
    the threshold, and [forgotten + survivors.size = input.size]. *)
Theorem forget_exact (memories : list Memory) (queryEmbedding : list float)
        (threshold : option float) :
  let t := default 0.7%float threshold in
  let out := forget memories queryEmbedding threshold in
  fst out `sublist_of` memories
  ∧ (∀ m, m ∈ fst out
          ↔ m ∈ memories
            ∧ JS.lt (cosineSimilarity (embedding m) queryEmbedding) t = true)
  ∧ fst out
    = List.filter (λ m, JS.lt (cosineSimilarity (embedding m) queryEmbedding) t) memories
  ∧ snd out + length (fst out) = length memories.
Proof.
  intros t out. subst out. unfold forget. fold t. simpl.
  split; [apply filter_sublist|]. split; [|split; [done|]].
  - intros m. rewrite !list_elem_of_In, filter_In. done.
  - pose proof (sublist_length _ _ (filter_sublist
      (λ m, JS.lt (cosineSimilarity (embedding m) queryEmbedding) t) memories)).
    lia.
Qed.

End DedupFacts.

(** ** Archival compactor *)

Section ArchiveFacts.

Lemma substring_prefix (n : nat) (s : string) :
  n ≤ String.length s →
  ∃ rest, s = substring 0 n s ++ rest ∧ String.length (substring 0 n s) = n.
Proof.
  revert s. induction n as [|n IH]; intros s Hn.
  - exists s. by destruct s.
  - destruct s as [|c s]; simpl in *; [lia|].
    destruct (IH s) as (rest & E & L); [lia|].
    exists rest. split; [|by rewrite L].
    change (String c s = String c (substring 0 n s ++ rest)). by f_equal.
Qed.

Lemma slice0_prefix (s : string) (n : Z) :
  (0 < n)%Z → (n < Z.of_nat (String.length s))%Z →
  ∃ rest, s = JS.slice0 s n ++ rest ∧ Z.of_nat (String.length (JS.slice0 s n)) = n.
Proof.
  intros Hpos Hlt. unfold JS.slice0.
  destruct (Z.ltb_spec n 0); [lia|].
  destruct (substring_prefix (Z.to_nat n) s) as (rest & E & L); [lia|].
  exists rest. split; [done|]. rewrite L. lia.
Qed.

(** The three conditions of the compactor, as propositions. *)
Definition compactable (truncateLength : Z) (m : Memory) : Prop :=
  tier m = Archive
  ∧ (truncateLength < Z.of_nat (String.length (content m)))%Z
  ∧ "consolidated" ∉ tags m.

Global Instance compactable_dec n m : Decision (compactable n m).
Proof. unfold compactable. apply _. Defined.

Lemma should_truncate_iff n m : should_truncate n m = true ↔ compactable n m.
Proof.
  unfold should_truncate, compactable, JS.includes.
  rewrite !andb_true_iff, negb_true_iff, bool_decide_eq_true,
    bool_decide_eq_false, Z.ltb_lt.
  tauto.
Qed.

(** What the specification says of a compacted record [m'] of [m]: the
    content is the first [n] characters followed by the ellipsis, the
    metadata gains the two keys, and nothing else moves. *)
Definition spec_compacted (n : Z) (m m' : Memory) : Prop :=
  (∃ prefix rest,
      content m = prefix ++ rest
      ∧ Z.of_nat (String.length prefix) = n
      ∧ content m' = prefix ++ "...")
  ∧ (∃ md,
        metadata m' = Some md
        ∧ md !! "truncated" = Some (MBool true)
        ∧ md !! "originalLength" = Some (MInt (Z.of_nat (String.length (content m))))
        ∧ ∀ k, k ≠ "truncated" → k ≠ "originalLength" →
               md !! k = spread (metadata m) !! k)
  ∧ id m' = id m ∧ embedding m' = embedding m ∧ tags m' = tags m
  ∧ importance m' = importance m ∧ tier m' = tier m
  ∧ createdAt m' = createdAt m ∧ lastAccessed m' = lastAccessed m
  ∧ accessCount m' = accessCount m ∧ source m' = source m.

Lemma truncated_spec n m :
  (0 < n)%Z → compactable n m → spec_compacted n m (truncated n m).
Proof.
  intros Hpos (_ & Hlen & _). split; [|split].
  - destruct (slice0_prefix (content m) n) as (rest & E & L); [done..|].
    exists (JS.slice0 (content m) n), rest. done.
  - eexists. split; [reflexivity|]. split; [|split].
    + by rewrite lookup_insert_ne, lookup_insert_eq.
    + by rewrite lookup_insert_eq.
    + intros k H1 H2. by rewrite !lookup_insert_ne.
  - done.
Qed.

Definition archive_one (n : Z) (m : Memory) : Memory :=
  if should_truncate n m then truncated n m else m.

Lemma archive_map_unfold n ms c :
  archive_map n ms c
  = (archive_one n <$> ms, c + length (List.filter (should_truncate n) ms)).
Proof.
  revert c. induction ms as [|m ms IH]; intros c; simpl.
  - f_equal. lia.
  - unfold archive_one at 1.
    destruct (should_truncate n m); rewrite IH; simpl; f_equal; lia.
Qed.

Lemma archive_disabled memories n :
  (n <= 0)%Z → archive memories n = (memories, 0).
Proof. intros Hn. unfold archive. by destruct (Z.leb_spec n 0); [|lia]. Qed.

Lemma archive_enabled memories n :
  (0 < n)%Z →
  archive memories n
  = (archive_one n <$> memories, length (List.filter (should_truncate n) memories)).
Proof.
  intros Hn. unfold archive. destruct (Z.leb_spec n 0); [lia|].
  by rewrite archive_map_unfold.
Qed.

(** C7. The compactor changes exactly the records that are in tier
    archive, longer than [truncateLength] and not tagged
    ['consolidated']: each gets the first [truncateLength] characters of
    its content followed by the ellipsis, and [truncated = true] and
    [originalLength] in its metadata; every other record is returned
    unchanged; [changed] counts the compacted records; and with
    [truncateLength <= 0] the input comes back unchanged with
    [changed = 0]. *)
Theorem archive_exact (memories : list Memory) (truncateLength : Z) :
  let out := archive memories truncateLength in
  Forall2 (λ m m',
             if decide (compactable truncateLength m)
             then (0 < truncateLength)%Z → spec_compacted truncateLength m m'
             else m' = m)
          memories (fst out)
  ∧ ((0 < truncateLength)%Z →
     snd out = length (List.filter (λ m, bool_decide (compactable truncateLength m))
                                   memories))
  ∧ ((truncateLength <= 0)%Z → out = (memories, 0)).
Proof.
  intros out. subst out. split; [|split].
  - destruct (Z.leb_spec truncateLength 0) as [Hle|Hpos].
    + rewrite archive_disabled by done. simpl.
      apply Forall_Forall2_diag, Forall_forall. intros m _. cbv beta.
      destruct (decide _); [lia|done].
    + rewrite archive_enabled by done. simpl.
      apply Forall2_fmap_r, Forall_Forall2_diag, Forall_forall. intros m _.
      unfold compose, archive_one. cbv beta.
      destruct (should_truncate truncateLength m) eqn:E.
      * apply should_truncate_iff in E. rewrite decide_True by done.
        intros _. by apply truncated_spec.
      * rewrite decide_False; [done|].
        rewrite <- should_truncate_iff. congruence.
  - intros Hpos. rewrite archive_enabled by done. simpl. f_equal.
    induction memories as [|m ms IH]; simpl; [done|].
    rewrite IH.
    destruct (should_truncate truncateLength m) eqn:E.
    * apply should_truncate_iff in E. by rewrite bool_decide_eq_true_2.
    * rewrite bool_decide_eq_false_2; [done|].
      rewrite <- should_truncate_iff. congruence.
  - apply archive_disabled.
Qed.

End ArchiveFacts.

(** ** Cluster *)

Section ClusterFacts.
Implicit Types (A : gset nat) (g : list nat) (cs : list (list nat)).

(** Groups at different positions share no index. *)
Definition pairwise_disjoint cs : Prop :=
  ∀ i j g h, cs !! i = Some g → cs !! j = Some h → i ≠ j → g ## h.

Lemma pairwise_disjoint_nil : pairwise_disjoint [].
Proof. intros i j g h Hi. by rewrite lookup_nil in Hi. Qed.

Lemma pairwise_disjoint_snoc cs g :
  pairwise_disjoint cs → (∀ h, h ∈ cs → h ## g) → pairwise_disjoint (cs ++ [g]).
Proof.
  intros Hcs Hg i j a b Ha Hb Hij.
  apply lookup_snoc_Some in Ha as [[Hi Ha]|[Hi <-]];
    apply lookup_snoc_Some in Hb as [[Hj Hb]|[Hj <-]].
  - by eapply Hcs.
  - apply Hg. by eapply list_elem_of_lookup_2.
  - intros x Hxg Hxb. eapply Hg; [by eapply list_elem_of_lookup_2|done..].
  - lia.
Qed.

Lemma elem_of_release g A x : x ∈ release g A ↔ x ∈ A ∧ x ∉ g.
Proof.
  unfold release. revert A. induction g as [|y g IH]; intros A; simpl.
  - set_solver.
  - rewrite IH, elem_of_difference, elem_of_singleton, not_elem_of_cons. tauto.
Qed.

(** What one scan of the candidates does to the group and to the
    assigned set. *)
Lemma cluster_grow_inv thr seed others g A g' A' :
  cluster_grow thr seed others g A = (g', A') →
  (∀ x, x ∈ g → x ∈ A) → NoDup g →
  (∀ x, x ∈ g' → x ∈ g ∨ ((x ∉ A) ∧ x ∈ (fst <$> others)))
  ∧ NoDup g'
  ∧ (∀ x, x ∈ A' ↔ x ∈ A ∨ x ∈ g')
  ∧ g `prefix_of` g'.
Proof.
  revert g A. induction others as [|[j mj] rest IH]; intros g A E HgA Hnd; simpl in E.
  - inversion E; subst. split; [by left|]. split; [done|]. split; [|done].
    intros x. split; [by left|]. intros [?|?]; auto.
  - assert (∀ x, x ∈ (fst <$> rest) → x ∈ (fst <$> (j, mj) :: rest)) as Hrest.
    { intros x Hx. rewrite fmap_cons. by apply list_elem_of_further. }
    assert (cluster_grow thr seed rest g A = (g', A') →
              (∀ x, x ∈ g' → x ∈ g ∨ ((x ∉ A) ∧ x ∈ (fst <$> (j, mj) :: rest)))
              ∧ NoDup g' ∧ (∀ x, x ∈ A' ↔ x ∈ A ∨ x ∈ g') ∧ g `prefix_of` g') as Hskip.
    { intros E1. destruct (IH _ _ E1 HgA Hnd) as (H1 & H2 & H3 & H4).
      split; [|done]. intros x Hx. destruct (H1 x Hx) as [?|[? ?]]; auto. }
    destruct (bool_decide (j ∈ A)) eqn:Hj; [by apply Hskip|].
    destruct (JS.ge _ _); [|by apply Hskip].
    apply bool_decide_eq_false in Hj.
    destruct (IH _ _ E) as (H1 & H2 & H3 & H4).
    + intros x. rewrite elem_of_app, list_elem_of_singleton, elem_of_union,
        elem_of_singleton. intros [?|?]; auto.
    + apply NoDup_app. split; [done|]. split; [|apply NoDup_singleton].
      intros x Hx. rewrite list_elem_of_singleton. intros ->. by apply Hj, HgA.
    + assert (j ∈ g') as Hjg.
      { eapply elem_of_prefix; [|exact H4].
        apply elem_of_app. right. apply list_elem_of_here. }
      split; [|split; [done|split]].
      * intros x Hx. destruct (H1 x Hx) as [Hx'|[Hx1 Hx2]].
        -- apply elem_of_app in Hx' as [?|Hx']; [by left|].
           apply list_elem_of_singleton in Hx' as ->. right.
           split; [done|]. rewrite fmap_cons. apply list_elem_of_here.
        -- right. split; [|by apply Hrest].
           intros HxA. apply Hx1. apply elem_of_union. by right.
      * intros x. rewrite H3, elem_of_union, elem_of_singleton. split.
        -- intros [[->|?]|?]; auto.
        -- intros [?|?]; auto.
      * etrans; [|exact H4]. by apply prefix_app_r.
Qed.

Section Seeds.
Variables (cfg : RequiredConfig) (candidates : list (nat * Memory)).

(** What holds of every group the loop has pushed. *)
Definition good_group g : Prop :=
  (r_minClusterSize cfg <= Z.of_nat (length g))%Z
  ∧ g ≠ []
  ∧ NoDup g
  ∧ ∀ x, x ∈ g → x ∈ (fst <$> candidates).

Definition seeds_inv A cs : Prop :=
  (∀ g x, g ∈ cs → x ∈ g → x ∈ A)
  ∧ pairwise_disjoint cs
  ∧ Forall good_group cs.

Lemma cluster_seeds_inv seeds A cs :
  Forall (λ p, fst p ∈ (fst <$> candidates)) seeds →
  seeds_inv A cs →
  ∃ A', seeds_inv A' (cluster_seeds cfg candidates seeds A cs).
Proof.
  intros Hseeds. revert A cs.
  induction Hseeds as [|[i mi] rest Hcand _ IH]; intros A cs Hinv; simpl.
  { by exists A. }
  simpl in Hcand.
  destruct (bool_decide (i ∈ A)) eqn:Hi; [by apply IH|].
  apply bool_decide_eq_false in Hi.
  destruct (cluster_grow _ _ _ _ _) as [g A1] eqn:E.
  apply cluster_grow_inv in E as (H1 & H2 & H3 & H4);
    [|intros x ->%list_elem_of_singleton; set_solver|apply NoDup_singleton].
  destruct Hinv as (HA & Hpd & Hgood).
  assert (∀ x, x ∈ g → x ∉ A) as Hfresh.
  { intros x Hx. destruct (H1 x Hx) as [Hx'|[Hx' _]].
    - apply list_elem_of_singleton in Hx' as ->. done.
    - intros HxA. apply Hx'. apply elem_of_union. by right. }
  destruct (Z.leb_spec (r_minClusterSize cfg) (Z.of_nat (length g))) as [Hsz|Hsz].
  - apply IH. split; [|split].
    + intros h x Hh Hx. apply H3.
      apply elem_of_app in Hh as [Hh|Hh].
      * left. apply elem_of_union. right. by eapply HA.
      * apply list_elem_of_singleton in Hh as ->. by right.
    + apply pairwise_disjoint_snoc; [done|].
      intros h Hh x Hxh Hxg. apply (Hfresh x Hxg). by eapply HA.
    + apply Forall_app. split; [done|]. apply Forall_singleton.
      split; [done|]. split; [|split; [done|]].
      { intros ->. by apply prefix_nil_not in H4. }
      intros x Hx. destruct (H1 x Hx) as [Hx'|[_ Hx']]; [|done].
      by apply list_elem_of_singleton in Hx' as ->.
  - apply IH. split; [|done].
    intros h x Hh Hx. apply elem_of_release. split.
    + apply H3. left. apply elem_of_union. right. by eapply HA.
    + intros Hxg. apply (Hfresh x Hxg). by eapply HA.
Qed.
End Seeds.

Definition warm_or_cold (m : Memory) : Prop := tier m = Warm ∨ tier m = Cold.

Lemma is_candidate_iff m : is_candidate m = true ↔ warm_or_cold m.
Proof.
  unfold is_candidate, warm_or_cold.
  by rewrite orb_true_iff, !bool_decide_eq_true.
Qed.

Lemma candidates_of_elem memories i m :
  (i, m) ∈ candidates_of memories ↔ memories !! i = Some m ∧ warm_or_cold m.
Proof.
  unfold candidates_of.
  rewrite list_elem_of_In, filter_In, <- list_elem_of_In, indexed_lookup.
  simpl. by rewrite is_candidate_iff.
Qed.

Lemma candidates_of_index memories i :
  i ∈ (fst <$> candidates_of memories) →
  ∃ m, memories !! i = Some m ∧ warm_or_cold m.
Proof.
  intros ([j m] & -> & Hin)%list_elem_of_fmap. exists m.
  by apply candidates_of_elem.
Qed.

Lemma candidates_of_length memories :
  length (candidates_of memories) = length (List.filter is_candidate memories).
Proof.
  unfold candidates_of, indexed. generalize 0.
  induction memories as [|m ms IH]; intros k; simpl; [done|].
  destruct (is_candidate m); simpl; by rewrite IH.
Qed.

Lemma cluster_unfold memories config :
  let cfg := merge_config DEFAULTS config in
  cluster memories config = []
  ∨ cluster memories config
    = cluster_seeds cfg (candidates_of memories) (candidates_of memories) ∅ [].
Proof. intros cfg. unfold cluster. fold cfg. destruct (_ <? _)%Z; auto. Qed.

(** The groups are disjoint, without repetition, large enough, and made
    of candidate positions. *)
Lemma cluster_good memories config :
  let cfg := merge_config DEFAULTS config in
  pairwise_disjoint (cluster memories config)
  ∧ Forall (good_group cfg (candidates_of memories)) (cluster memories config).
Proof.
  intros cfg. destruct (cluster_unfold memories config) as [->| ->].
  { split; [apply pairwise_disjoint_nil | apply Forall_nil_2]. }
  destruct (cluster_seeds_inv cfg (candidates_of memories)
              (candidates_of memories) ∅ []) as (A' & _ & Hpd & Hgood).
  - apply Forall_forall. intros p Hp. by apply list_elem_of_fmap_2.
  - split; [|split].
    + intros g x Hg. by apply elem_of_nil in Hg.
    + apply pairwise_disjoint_nil.
    + apply Forall_nil_2.
  - done.
Qed.

(** Every index of every group is a position of the array. *)
Lemma cluster_in_range memories config :
  Forall (Forall (λ i, i < length memories)) (cluster memories config).
Proof.
  destruct (cluster_good memories config) as [_ Hgood].
  eapply Forall_impl; [exact Hgood|]. intros g (_ & _ & _ & Hg).
  apply Forall_forall. intros i Hi.
  destruct (candidates_of_index memories i (Hg i Hi)) as (m & Hm & _).
  by eapply lookup_lt_Some.
Qed.

(** C5. Every group returned by [cluster] has at least
    [minClusterSize] members, the groups are pairwise disjoint, every
    index in a group is the position of a warm or cold record, and with
    fewer than [minClusterSize] warm or cold records there are no
    clusters. *)
Theorem cluster_invariants (memories : list Memory) (config : ConsolidateConfig) :
  let cfg := merge_config DEFAULTS config in
  let clusters := cluster memories config in
  Forall (λ g, (r_minClusterSize cfg <= Z.of_nat (length g))%Z) clusters
  ∧ (∀ i j g h, clusters !! i = Some g → clusters !! j = Some h → i ≠ j →
                ∀ x, x ∈ g → x ∉ h)
  ∧ Forall (Forall (λ i, ∃ m, memories !! i = Some m
                              ∧ (tier m = Warm ∨ tier m = Cold))) clusters
  ∧ ((Z.of_nat (length (List.filter
                          (λ m, bool_decide (tier m = Warm ∨ tier m = Cold))
                          memories)) < r_minClusterSize cfg)%Z →
     clusters = []).
Proof.
  intros cfg clusters.
  destruct (cluster_good memories config) as [Hpd Hgood]. fold cfg clusters in Hpd, Hgood.
  split; [|split; [|split]].
  - eapply Forall_impl; [exact Hgood|]. by intros g (? & _).
  - intros i j g h Hg Hh Hij x Hxg Hxh. by eapply (Hpd i j g h).
  - eapply Forall_impl; [exact Hgood|]. intros g (_ & _ & _ & Hg).
    apply Forall_forall. intros i Hi. by apply candidates_of_index, Hg.
  - intros Hfew. subst clusters. unfold cluster. fold cfg.
    rewrite candidates_of_length.
    rewrite (filter_ext is_candidate
               (λ m, bool_decide (tier m = Warm ∨ tier m = Cold))).
    + match goal with |- context [(?a <? ?b)%Z] =>
        destruct (Z.ltb_spec a b) as [|Hge]; [done|lia] end.
    + intros m. apply eq_true_iff_eq.
      by rewrite is_candidate_iff, bool_decide_eq_true.
Qed.

End ClusterFacts.

(** ** Merge coordinator: one iteration *)

Section MergeStep.
Context {W : Type} (clock : Clock W) (summarizer : Summarizer W).
Implicit Types (memories : list Memory) (g : list nat) (st : MergeState).

(** The records a group denotes, [group.map(i => memories[i])], on the
    indices inside the array. *)
Definition records memories g : list Memory := omap (λ i, memories !! i) g.

(** The argument the summarizer receives for a group. *)
Definition texts memories g : list string := content <$> records memories g.

Definition in_range memories g : Prop := Forall (λ i, i < length memories) g.

Lemma mapM_records memories g :
  in_range memories g → mapM (λ i, memories !! i) g = Some (records memories g).
Proof.
  unfold records. induction 1 as [|i g Hi _ IH]; [done|].
  destruct (lookup_lt_is_Some_2 memories i Hi) as [m Hm].
  simpl. rewrite IH. cbn. rewrite Hm. cbn. reflexivity.
Qed.

Lemma records_lookup memories g q i m :
  in_range memories g → g !! q = Some i → memories !! i = Some m →
  records memories g !! q = Some m.
Proof.
  unfold records. intros Hr. revert q.
  induction Hr as [|j g Hj _ IH]; intros q Hq Hm; [done|].
  destruct (lookup_lt_is_Some_2 memories j Hj) as [mj Hmj].
  simpl. rewrite Hmj. destruct q as [|q]; simpl in *; [congruence|].
  by apply IH.
Qed.

Lemma records_length memories g :
  in_range memories g → length (records memories g) = length g.
Proof.
  unfold records. induction 1 as [|j g Hj _ IH]; [done|].
  destruct (lookup_lt_is_Some_2 memories j Hj) as [mj Hmj].
  simpl. rewrite Hmj. simpl. f_equal. exact IH.
Qed.

(** A summarizer answer the coordinator accepts: a string of at least
    ten characters. *)
Definition usable (answer : option string) : bool :=
  match answer with
  | Some summary => 10 <=? String.length summary
  | None => false
  end.

(** A rejected, empty or short answer leaves all three locals as they
    were; only the world moves on. *)
Lemma merge_cluster_skip memories g st w :
  in_range memories g →
  usable (fst (summarizer (texts memories g) w)) = false →
  merge_cluster clock summarizer memories g st w
  = (Some st, snd (summarizer (texts memories g) w)).
Proof.
  intros Hr Hbad. unfold merge_cluster. rewrite (mapM_records _ _ Hr).
  fold (texts memories g).
  destruct (summarizer (texts memories g) w) as [[summary|] w1];
    cbn [fst snd usable] in *; [|done].
  unfold merge_group. apply Nat.leb_gt in Hbad.
  destruct (Nat.ltb_spec (String.length summary) 10) as [_|?]; [|lia].
  by rewrite orb_true_r.
Qed.

Lemma merge_loop_snoc memories cs g st w :
  merge_loop clock summarizer memories (cs ++ [g]) st w
  = match merge_loop clock summarizer memories cs st w with
    | (None, w1) => (None, w1)
    | (Some st1, w1) => merge_cluster clock summarizer memories g st1 w1
    end.
Proof.
  revert st w. induction cs as [|c cs IH]; intros st w; simpl.
  - by destruct (merge_cluster _ _ _ _ _ _) as [[?|] ?].
  - destruct (merge_cluster _ _ _ c _ _) as [[st1|] w1]; [apply IH|done].
Qed.

Lemma elem_of_mark_others best g (R : gset nat) x :
  x ∈ mark_others best g R ↔ x ∈ R ∨ (x ∈ g ∧ x ≠ best).
Proof.
  unfold mark_others. revert R. induction g as [|y g IH]; intros R; simpl.
  - rewrite elem_of_nil. tauto.
  - rewrite IH, elem_of_cons. case_bool_decide as Hy.
    + rewrite elem_of_union, elem_of_singleton. naive_solver.
    + naive_solver.
Qed.

Lemma foldl_pick_elem (first : nat * Memory) rest :
  foldl pick first rest ∈ first :: rest.
Proof.
  revert first. induction rest as [|b rest IH]; intros first; simpl.
  - apply list_elem_of_here.
  - specialize (IH (pick first b)). unfold pick in *.
    destruct (JS.ge _ _); set_solver.
Qed.

Lemma reduce_best_elem group best :
  reduce_best group = Some best → best ∈ group.
Proof.
  destruct group as [|first rest]; simpl; [done|].
  intros [= <-]. apply foldl_pick_elem.
Qed.

Lemma reduce_best_is_Some group : group ≠ [] → is_Some (reduce_best group).
Proof. by destruct group. Qed.

(** With distinct identifiers, [findIndex] by identifier lands on the
    position asked for. *)
Lemma find_by_id (xs : list Memory) (i : nat) (r : Memory) (key : string) :
  NoDup (id <$> xs) → xs !! i = Some r → id r = key →
  list_find (λ m, id m = key) xs = Some (i, r).
Proof.
  intros Hnd Hi Hid. apply list_find_Some. split; [done|]. split; [done|].
  intros j y Hj Hlt Hy. subst key.
  assert (i = j); [|lia].
  eapply NoDup_lookup; [exact Hnd| |]; rewrite list_lookup_fmap.
  - by rewrite Hi.
  - rewrite Hj. simpl. by rewrite Hy.
Qed.

End MergeStep.

Section DropIndices.
Context {A : Type}.

Lemma elem_of_drop_indices (R : gset nat) (xs : list A) (x : A) :
  x ∈ drop_indices R xs ↔ ∃ i, (i ∉ R) ∧ xs !! i = Some x.
Proof.
  unfold drop_indices. rewrite list_elem_of_fmap. split.
  - intros ([i y] & -> & Hin). apply list_elem_of_In, filter_In in Hin as [Hin Hk].
    apply list_elem_of_In, indexed_lookup in Hin. exists i. split; [|done].
    simpl in Hk. by apply negb_true_iff, bool_decide_eq_false in Hk.
  - intros (i & Hi & Hx). exists (i, x). split; [done|].
    apply list_elem_of_In, filter_In. split.
    + by apply list_elem_of_In, indexed_lookup.
    + simpl. by apply negb_true_iff, bool_decide_eq_false.
Qed.
End DropIndices.

(** ** Merge coordinator: the whole loop *)

Section MergeRun.
Context {W : Type} (clock : Clock W) (summarizer : Summarizer W).
Variables (memories : list Memory) (clusters : list (list nat)) (w : W).

(** The identifiers are distinct, and the clusters are what [cluster]
    returns: disjoint non-empty groups of distinct positions. *)
Hypothesis Hids : NoDup (id <$> memories).
Hypothesis Hpd : pairwise_disjoint clusters.
Hypothesis Hgroups :
  Forall (λ g, g ≠ [] ∧ NoDup g ∧ in_range memories g) clusters.

(** The locals and the world when the loop reaches cluster [k]. *)
Definition state_at (k : nat) : option MergeState * W :=
  merge_loop clock summarizer memories (take k clusters) (mkMerge memories ∅ 0) w.

(** What the summarizer answers for cluster [k], and whether the
    coordinator accepts it. *)
Definition answer (k : nat) (g : list nat) : option string * W :=
  summarizer (texts memories g) (snd (state_at k)).
Definition merges (k : nat) (g : list nat) : bool := usable (fst (answer k g)).
Definition stamp (k : nat) (g : list nat) : string :=
  fst (Date_iso clock (snd (answer k g))).

(** The index and the record [reduce] settles on. *)
Definition representative (g : list nat) : nat :=
  match reduce_best (zip g (records memories g)) with
  | Some (best, _) => best
  | None => 0
  end.

(** The sum of [group size - 1] over the merged clusters before [k]. *)
Fixpoint merged_upto (k : nat) : nat :=
  match k with
  | 0 => 0
  | S j =>
      merged_upto j
      + match clusters !! j with
        | Some g => if merges j g then length g - 1 else 0
        | None => 0
        end
  end.

Definition run_inv (k : nat) (st : MergeState) : Prop :=
  (∀ i, i ∈ toRemove st
        ↔ ∃ j g, j < k ∧ clusters !! j = Some g ∧ merges j g = true
                 ∧ i ∈ g ∧ i ≠ representative g)
  ∧ (∀ i, (∀ j g, j < k → clusters !! j = Some g → merges j g = true →
                  representative g ≠ i) →
          result st !! i = memories !! i)
  ∧ (∀ j g, j < k → clusters !! j = Some g → merges j g = true →
            ∃ mb s, memories !! representative g = Some mb
                    ∧ fst (answer j g) = Some s
                    ∧ result st !! representative g
                      = Some (consolidated mb s (importance <$> records memories g)
                                           (length g) (stamp j g)))
  ∧ totalMerged st = merged_upto k
  ∧ id <$> result st = id <$> memories.

Lemma group_facts k g :
  clusters !! k = Some g → g ≠ [] ∧ NoDup g ∧ in_range memories g.
Proof.
  intros Hg. eapply Forall_forall in Hgroups; [exact Hgroups|].
  by eapply list_elem_of_lookup_2.
Qed.

Lemma zip_records_elem g i m :
  in_range memories g → (i, m) ∈ zip g (records memories g) →
  i ∈ g ∧ memories !! i = Some m.
Proof.
  unfold records. induction 1 as [|j g Hj _ IH]; simpl.
  { intros H%elem_of_nil. done. }
  destruct (lookup_lt_is_Some_2 memories j Hj) as [mj Hmj]. rewrite Hmj. simpl.
  intros [E|Hin]%elem_of_cons.
  - inversion E; subst. split; [apply list_elem_of_here | done].
  - destruct (IH Hin). split; [by apply list_elem_of_further | done].
Qed.

Lemma representative_spec g :
  g ≠ [] → in_range memories g →
  ∃ mb, reduce_best (zip g (records memories g)) = Some (representative g, mb)
        ∧ representative g ∈ g
        ∧ memories !! representative g = Some mb.
Proof.
  intros Hne Hr. unfold representative.
  destruct (reduce_best_is_Some (zip g (records memories g))) as [[b mb] E].
  { pose proof (records_length memories g Hr) as Hlen.
    destruct g; [done|]. by destruct (records memories (n :: g)). }
  rewrite E. exists mb. split; [done|].
  by apply zip_records_elem, reduce_best_elem.
Qed.

Lemma merge_cluster_merge g st wk s w1 mb :
  in_range memories g →
  summarizer (texts memories g) wk = (Some s, w1) →
  10 ≤ String.length s →
  reduce_best (zip g (records memories g)) = Some (representative g, mb) →
  result st !! representative g = Some mb →
  NoDup (id <$> result st) →
  merge_cluster clock summarizer memories g st wk
  = (Some (mkMerge
             (<[representative g :=
                  consolidated mb s (importance <$> records memories g)
                               (length g) (fst (Date_iso clock w1))]> (result st))
             (mark_others (representative g) g (toRemove st))
             (totalMerged st + (length g - 1))),
     snd (Date_iso clock w1)).
Proof.
  intros Hr Hs Hlen Hbest Hres Hnd. unfold merge_cluster.
  rewrite (mapM_records _ _ Hr). fold (texts memories g). rewrite Hs.
  unfold merge_group.
  destruct (Nat.eqb_spec (String.length s) 0) as [?|_]; [lia|].
  destruct (Nat.ltb_spec (String.length s) 10) as [?|_]; [lia|].
  simpl orb. cbv iota. rewrite Hbest.
  rewrite (find_by_id (result st) (representative g) mb (id mb)) by done.
  by destruct (Date_iso clock w1).
Qed.

Lemma state_at_S k g :
  clusters !! k = Some g →
  state_at (S k)
  = match state_at k with
    | (None, w1) => (None, w1)
    | (Some st1, w1) => merge_cluster clock summarizer memories g st1 w1
    end.
Proof.
  intros Hg. unfold state_at.
  rewrite (take_S_r _ _ _ Hg). apply merge_loop_snoc.
Qed.

Lemma other_representative j k g h :
  j < k → clusters !! j = Some g → clusters !! k = Some h →
  representative g ∉ h.
Proof.
  intros Hjk Hg Hh Hin.
  destruct (group_facts j g Hg) as (Hne & _ & Hr).
  destruct (representative_spec g Hne Hr) as (_ & _ & Hrep & _).
  eapply (Hpd j k g h); [done|done|lia|exact Hrep|exact Hin].
Qed.

(** The loop never throws on such clusters, and its locals are exactly
    what the merged clusters so far account for. *)
Lemma run_invariant k :
  k ≤ length clusters → ∃ st, fst (state_at k) = Some st ∧ run_inv k st.
Proof.
  induction k as [|k IH]; intros Hk.
  { exists (mkMerge memories ∅ 0). split; [done|]. unfold run_inv. simpl.
    split; [|split; [|split]].
    - intros i. split; [set_solver|]. intros (j & _ & ? & _). lia.
    - done.
    - intros j g ?. lia.
    - done. }
  destruct IH as (st & Hst & I1 & I2 & I3 & I4 & I5); [lia|].
  destruct (lookup_lt_is_Some_2 clusters k) as [g Hg]; [lia|].
  destruct (group_facts k g Hg) as (Hne & Hnd & Hr).
  rewrite (state_at_S k g Hg).
  destruct (state_at k) as [ost wk] eqn:Ek. simpl in Hst. subst ost.
  assert (answer k g = summarizer (texts memories g) wk) as Hans.
  { unfold answer. by rewrite Ek. }
  assert (∀ j, j < S k ↔ j < k ∨ j = k) as HS by lia.
  destruct (merges k g) eqn:Hm.
  - (* the cluster merges *)
    destruct (representative_spec g Hne Hr) as (mb & Hbest & Hrep & Hmb).
    unfold merges in Hm. rewrite Hans in Hm.
    destruct (summarizer (texts memories g) wk) as [[s|] w1] eqn:Es; [|done].
    cbn [fst usable] in Hm. apply Nat.leb_le in Hm.
    assert (result st !! representative g = Some mb) as Hres.
    { rewrite I2; [done|]. intros j h Hj Hh _ E.
      apply (other_representative j k h g Hj Hh Hg). by rewrite E. }
    rewrite (merge_cluster_merge g st wk s w1 mb) by (try done; by rewrite I5).
    eexists. split; [reflexivity|]. unfold run_inv. simpl.
    assert (stamp k g = fst (Date_iso clock w1)) as Hstamp.
    { unfold stamp. by rewrite Hans. }
    assert (merges k g = true) as Hm'.
    { unfold merges. rewrite Hans. cbn [fst usable]. by apply Nat.leb_le. }
    split; [|split; [|split; [|split]]].
    + intros i. rewrite elem_of_mark_others, I1. split.
      * intros [(j & h & ? & ?)|[? ?]].
        -- exists j, h. split; [lia|done].
        -- exists k, g. split; [lia|done].
      * intros (j & h & Hj & Hh & Hmj & Hi). apply HS in Hj as [Hj| ->].
        -- left. by exists j, h.
        -- right. rewrite Hg in Hh. by inversion Hh; subst.
    + intros i Hi. rewrite list_lookup_insert_ne.
      * apply I2. intros j h Hj. apply Hi. lia.
      * apply (Hi k g); [lia|done..].
    + intros j h Hj Hh Hmj. apply HS in Hj as [Hj| ->].
      * destruct (I3 j h Hj Hh Hmj) as (m & s' & ? & ? & ?).
        exists m, s'. split; [done|]. split; [done|].
        rewrite list_lookup_insert_ne; [done|].
        intros E. apply (other_representative j k h g Hj Hh Hg). by rewrite <- E.
      * rewrite Hg in Hh. inversion Hh; subst h. exists mb, s.
        split; [done|]. split; [by rewrite Hans|].
        rewrite list_lookup_insert_eq by (by eapply lookup_lt_Some).
        by rewrite Hstamp.
    + rewrite I4, Hg, Hm'. done.
    + rewrite list_fmap_insert. simpl. rewrite <- I5. apply list_insert_id.
      rewrite list_lookup_fmap, Hres. done.
  - (* the cluster is skipped *)
    rewrite merge_cluster_skip by (try done; by rewrite <- Hans).
    exists st. split; [done|]. unfold run_inv.
    split; [|split; [|split; [|split]]].
    + intros i. rewrite I1. split.
      * intros (j & h & ? & ?). exists j, h. split; [lia|done].
      * intros (j & h & Hj & Hh & Hmj & Hi). apply HS in Hj as [Hj| ->].
        -- by exists j, h.
        -- rewrite Hg in Hh. inversion Hh; subst. congruence.
    + intros i Hi. apply I2. intros j h Hj. apply Hi. lia.
    + intros j h Hj Hh Hmj. apply HS in Hj as [Hj| ->]; [by apply I3|].
      rewrite Hg in Hh. inversion Hh; subst. congruence.
    + simpl. rewrite I4, Hg, Hm. lia.
    + done.
Qed.

(** The result of [summarizeClusters], read off the invariant. *)
Lemma summarizeClusters_run :
  ∃ st w',
    summarizeClusters clock memories clusters summarizer w
    = (Some (drop_indices (toRemove st) (result st), totalMerged st), w')
    ∧ run_inv (length clusters) st.
Proof.
  destruct (run_invariant (length clusters)) as (st & Hst & Hinv); [done|].
  unfold state_at in Hst. rewrite firstn_all in Hst.
  unfold summarizeClusters.
  destruct (merge_loop _ _ _ _ _ _) as [ost w']. simpl in Hst. subst ost.
  by exists st, w'.
Qed.

End MergeRun.

(** ** The pipeline: it always returns, and it keeps the identifiers *)

Section PipelineFacts.
Context {W : Type} (clock : Clock W).
Implicit Types (memories : list Memory) (st : MergeState) (w : W).

Lemma decay_ids memories config w :
  id <$> fst (fst (decay clock memories config w)) = id <$> memories.
Proof.
  rewrite decay_unfold. simpl. rewrite <- list_fmap_compose.
  apply list_fmap_ext. intros _ m _. simpl. unfold decay_one.
  by destruct (bool_decide _).
Qed.

Lemma archive_ids memories n : id <$> fst (archive memories n) = id <$> memories.
Proof.
  destruct (Z.leb_spec n 0) as [Hle|Hpos].
  - by rewrite archive_disabled.
  - rewrite archive_enabled by done. simpl. rewrite <- list_fmap_compose.
    apply list_fmap_ext. intros _ m _. simpl. unfold archive_one.
    by destruct (should_truncate n m).
Qed.

Lemma merge_group_ids memories g recs summary st w :
  id <$> result (fst (merge_group clock memories g recs summary st w))
  = id <$> result st.
Proof.
  unfold merge_group. destruct (_ || _); [done|].
  destruct (reduce_best _) as [[best mbest]|]; [|done].
  destruct (list_find _ _) as [[k r]|] eqn:Hfind; [|done].
  apply list_find_Some in Hfind as (Hk & _ & _).
  destruct (Date_iso clock w) as [iso w1]. simpl.
  rewrite list_fmap_insert. simpl. apply list_insert_id.
  by rewrite list_lookup_fmap, Hk.
Qed.

Lemma merge_cluster_ok (summarizer : Summarizer W) memories g st w :
  in_range memories g →
  ∃ st1 w1, merge_cluster clock summarizer memories g st w = (Some st1, w1)
            ∧ id <$> result st1 = id <$> result st.
Proof.
  intros Hr. unfold merge_cluster. rewrite (mapM_records _ _ Hr).
  destruct (summarizer _ w) as [[summary|] w1]; [|by eexists _, _].
  pose proof (merge_group_ids memories g (records memories g) summary st w1) as Hids.
  destruct (merge_group _ _ _ _ _ _ _) as [st1 w2]. by eexists _, _.
Qed.

Lemma merge_loop_ok (summarizer : Summarizer W) memories clusters st w :
  Forall (in_range memories) clusters →
  ∃ st1 w1, merge_loop clock summarizer memories clusters st w = (Some st1, w1)
            ∧ id <$> result st1 = id <$> result st.
Proof.
  intros Hr. revert st w. induction Hr as [|g clusters Hg _ IH]; intros st w; simpl.
  { by eexists _, _. }
  destruct (merge_cluster_ok summarizer memories g st w Hg) as (st1 & w1 & -> & E1).
  destruct (IH st1 w1) as (st2 & w2 & -> & E2).
  eexists _, _. split; [done|]. congruence.
Qed.

Lemma summarizeClusters_ok (summarizer : Summarizer W) memories clusters w :
  Forall (in_range memories) clusters →
  ∃ out merged w1,
    summarizeClusters clock memories clusters summarizer w = (Some (out, merged), w1)
    ∧ (id <$> out) `sublist_of` (id <$> memories).
Proof.
  intros Hr. unfold summarizeClusters.
  destruct (merge_loop_ok summarizer memories clusters (mkMerge memories ∅ 0) w Hr)
    as (st & w1 & -> & E).
  eexists _, _, _. split; [done|]. simpl in E. rewrite <- E.
  apply fmap_sublist, drop_indices_sublist.
Qed.

Lemma cluster_and_summarize_ok memories cfg (summarizer : option (Summarizer W)) w :
  ∃ out found merged w1,
    cluster_and_summarize clock memories cfg summarizer w
    = (Some (out, found, merged), w1)
    ∧ (id <$> out) `sublist_of` (id <$> memories).
Proof.
  unfold cluster_and_summarize. destruct summarizer as [s|]; [|by eexists _, _, _, _].
  destruct (0 <? _); [|by eexists _, _, _, _].
  destruct (summarizeClusters_ok s memories (cluster memories (as_config cfg)) w)
    as (out & merged & w1 & -> & Hsub).
  { apply cluster_in_range. }
  by eexists _, _, _, _.
Qed.

Lemma consolidate_ok memories config (summarizer : option (Summarizer W)) w :
  ∃ out report w1,
    consolidate clock memories config summarizer w = (Some (out, report), w1)
    ∧ (id <$> out) `sublist_of` (id <$> memories).
Proof.
  unfold consolidate. destruct (Date_now clock w) as [start w0].
  pose proof (decay_ids memories (as_config (merge_config DEFAULTS config)) w0) as Hd.
  destruct (decay clock memories _ w0) as [[decayed changed] w1]. simpl in Hd.
  cbv beta iota zeta. cbn [fst snd].
  pose proof (deduplicate_sublist decayed
                (Some (r_deduplicateThreshold (merge_config DEFAULTS config)))) as Hdd.
  destruct (cluster_and_summarize_ok
              (fst (deduplicate decayed
                      (Some (r_deduplicateThreshold (merge_config DEFAULTS config)))))
              (merge_config DEFAULTS config) summarizer w1)
    as (out & found & merged & w2 & -> & Hsub).
  destruct (Date_iso clock w2) as [stamp w3]. destruct (Date_now clock w3) as [finish w4].
  eexists _, _, _. split; [done|]. rewrite archive_ids.
  etrans; [exact Hsub|]. rewrite <- Hd. by apply fmap_sublist.
Qed.

(** C10. The identifiers returned by [decay], [deduplicate], [forget]
    and [consolidate] form a subsequence of the input identifiers: no new
    identifier, no reordering, and an identifier that was unique stays
    unique.  [consolidate] always returns. *)
Theorem identifiers_preserved memories (config : ConsolidateConfig)
        (threshold : option float) (queryEmbedding : list float)
        (summarizer : option (Summarizer W)) w :
  id <$> fst (fst (decay clock memories config w)) = id <$> memories
  ∧ (id <$> fst (deduplicate memories threshold)) `sublist_of` (id <$> memories)
  ∧ (id <$> fst (forget memories queryEmbedding threshold)) `sublist_of` (id <$> memories)
  ∧ (∃ out report w1,
        consolidate clock memories config summarizer w = (Some (out, report), w1)
        ∧ (id <$> out) `sublist_of` (id <$> memories)
        ∧ (NoDup (id <$> memories) → NoDup (id <$> out))).
Proof.
  split; [apply decay_ids|]. split; [apply fmap_sublist, deduplicate_sublist|].
  split; [apply fmap_sublist, filter_sublist|].
  destruct (consolidate_ok memories config summarizer w) as (out & report & w1 & E & Hsub).
  exists out, report, w1. split; [done|]. split; [done|].
  intros Hnd. by eapply sublist_NoDup.
Qed.

End PipelineFacts.

(** ** Merge coordinator: what a merged cluster becomes *)

Lemma elem_of_uniq_from (seen xs : list string) (x : string) :
  x ∈ JS.uniq_from seen xs ↔ x ∈ xs ∧ x ∉ seen.
Proof.
  revert seen. induction xs as [|y xs IH]; intros seen; simpl.
  { rewrite elem_of_nil. tauto. }
  case_bool_decide as Hy.
  - rewrite IH, elem_of_cons. split; [tauto|].
    intros [[->|?] ?]; [done|tauto].
  - rewrite elem_of_cons, IH, !elem_of_cons. split.
    + intros [->|[? ?]]; [tauto|]. split; [tauto|]. tauto.
    + intros [[->|?] ?]; [by left|].
      destruct (decide (x = y)) as [->|?]; [by left|]. right. tauto.
Qed.

Lemma NoDup_uniq_from (seen xs : list string) : NoDup (JS.uniq_from seen xs).
Proof.
  revert seen. induction xs as [|y xs IH]; intros seen; simpl; [constructor|].
  case_bool_decide; [apply IH|]. constructor; [|apply IH].
  rewrite elem_of_uniq_from, elem_of_cons. tauto.
Qed.

(** [[...new Set([...tags, 'consolidated'])]] is the union of the tag set
    with the one tag. *)
Lemma consolidated_tags (ts : list string) (t : string) :
  t ∈ JS.array_from_set (ts ++ ["consolidated"]) ↔ t ∈ ts ∨ t = "consolidated".
Proof.
  unfold JS.array_from_set.
  rewrite elem_of_uniq_from, elem_of_app, list_elem_of_singleton, elem_of_nil. tauto.
Qed.

Lemma cluster_groups (memories : list Memory) (config : ConsolidateConfig) :
  Forall (λ g, g ≠ [] ∧ NoDup g ∧ in_range memories g) (cluster memories config).
Proof.
  destruct (cluster_good memories config) as [_ Hgood].
  pose proof (cluster_in_range memories config) as Hrange.
  apply Forall_forall. intros g Hg.
  eapply Forall_forall in Hgood as (_ & ? & ? & _); [|exact Hg].
  eapply Forall_forall in Hrange; [|exact Hg]. done.
Qed.

Lemma zip_records_lookup (memories : list Memory) (g : list nat) q i m :
  in_range memories g →
  zip g (records memories g) !! q = Some (i, m)
  ↔ g !! q = Some i ∧ memories !! i = Some m.
Proof.
  intros Hr. split.
  - intros Hq. apply lookup_zip_with_Some in Hq as (i' & m' & E & Hi & Hm).
    injection E as <- <-. split; [done|].
    destruct (lookup_lt_is_Some_2 memories i) as [m0 Hm0].
    { eapply Forall_forall in Hr; [exact Hr|]. by eapply list_elem_of_lookup_2. }
    rewrite (records_lookup memories g q i m0 Hr Hi Hm0) in Hm. congruence.
  - intros [Hi Hm]. apply lookup_zip_with_Some. exists i, m.
    split; [done|]. split; [done|]. by eapply records_lookup.
Qed.

(** The representative is the first member of the group, in group order,
    whose score no other member exceeds. *)
Lemma representative_first_best (memories : list Memory) (g : list nat) :
  g ≠ [] → in_range memories g →
  Forall (λ m, is_nan (score m) = false) (records memories g) →
  ∃ p mb,
    g !! p = Some (representative memories g)
    ∧ memories !! representative memories g = Some mb
    ∧ ∀ q i m, g !! q = Some i → memories !! i = Some m →
               JS.ge (score mb) (score m) = true
               ∧ (q < p → JS.gt (score mb) (score m) = true).
Proof.
  intros Hne Hr Hnan.
  destruct (representative_spec memories g Hne Hr) as (mb & Hbest & _ & Hmb).
  destruct (zip g (records memories g)) as [|first rest] eqn:Ez; [done|].
  simpl in Hbest. injection Hbest as Hbest.
  destruct (foldl_pick_best first rest) as (p & Hp & Hge & Hgt).
  { apply Forall_forall. intros [i m] Him. simpl.
    rewrite <- Ez in Him. apply list_elem_of_lookup in Him as [q Hq].
    apply lookup_zip_with_Some in Hq as (i' & m' & E & _ & Hm). injection E as <- <-.
    eapply Forall_forall in Hnan; [exact Hnan|]. by eapply list_elem_of_lookup_2. }
  rewrite Hbest in Hp, Hge, Hgt. simpl in Hge, Hgt.
  exists p, mb. rewrite <- Ez in Hp, Hge, Hgt.
  apply zip_records_lookup in Hp as [Hp _]; [|done].
  split; [done|]. split; [done|].
  intros q i m Hi Hm.
  assert (zip g (records memories g) !! q = Some (i, m)) as Hq
    by by apply zip_records_lookup.
  split; [exact (Hge q (i, m) Hq) | intros Hlt; exact (Hgt q (i, m) Hlt Hq)].
Qed.

Section MergeFacts.
Context {W : Type} (clock : Clock W) (summarizer : Summarizer W).
Variables (memories : list Memory) (config : ConsolidateConfig) (w : W).

(** What the specification says of the record [r] that stands for a
    merged group with representative [mb]. *)
Definition spec_consolidated (mb r : Memory) (summary : string)
           (members : list Memory) (groupSize : nat) (iso : string) : Prop :=
  content r = summary
  ∧ (∀ t, t ∈ tags r ↔ t ∈ tags mb ∨ t = "consolidated")
  ∧ importance r = JS.Math_max (importance <$> members)
  ∧ (∃ md,
        metadata r = Some md
        ∧ md !! "consolidatedFrom" = Some (MInt (Z.of_nat groupSize))
        ∧ md !! "consolidatedAt" = Some (MStr iso)
        ∧ ∀ key, key ≠ "consolidatedFrom" → key ≠ "consolidatedAt" →
                 md !! key = spread (metadata mb) !! key)
  ∧ id r = id mb ∧ embedding r = embedding mb ∧ tier r = tier mb
  ∧ createdAt r = createdAt mb ∧ lastAccessed r = lastAccessed mb
  ∧ accessCount r = accessCount mb ∧ source r = source mb.

Lemma consolidated_spec mb summary members groupSize iso :
  spec_consolidated mb (consolidated mb summary (importance <$> members) groupSize iso)
                    summary members groupSize iso.
Proof.
  split; [done|]. split; [apply consolidated_tags|]. split; [done|]. split; [|done].
  eexists. split; [reflexivity|]. split; [|split].
  - by rewrite lookup_insert_ne, lookup_insert_eq.
  - by rewrite lookup_insert_eq.
  - intros key H1 H2. by rewrite !lookup_insert_ne.
Qed.

Let clusters := cluster memories config.

(** The records of a cluster that did not merge are all in the output,
    as they were. *)
Lemma skipped_cluster_kept k g :
  NoDup (id <$> memories) →
  clusters !! k = Some g →
  merges clock summarizer memories clusters w k g = false →
  ∃ out merged w1,
    summarizeClusters clock memories clusters summarizer w = (Some (out, merged), w1)
    ∧ ∀ i, i ∈ g → ∃ m, memories !! i = Some m ∧ m ∈ out.
Proof.
  intros Hids Hg Hskip.
  destruct (cluster_good memories config) as [Hpd _]. fold clusters in Hpd.
  pose proof (cluster_groups memories config) as Hgroups. fold clusters in Hgroups.
  destruct (summarizeClusters_run clock summarizer memories clusters w Hids Hpd Hgroups)
    as (st & w1 & E & I1 & I2 & _).
  exists (drop_indices (toRemove st) (result st)), (totalMerged st), w1.
  split; [done|]. intros i Hi.
  assert (∀ j h, clusters !! j = Some h →
                 merges clock summarizer memories clusters w j h = true → i ∉ h) as Hother.
  { intros j h Hh Hm Hih. destruct (decide (j = k)) as [->|Hjk].
    - rewrite Hg in Hh. injection Hh as <-. congruence.
    - by apply (Hpd j k h g Hh Hg Hjk i). }
  destruct (lookup_lt_is_Some_2 memories i) as [m Hm].
  { eapply Forall_forall in Hgroups as (_ & _ & Hr); [|by eapply list_elem_of_lookup_2].
    eapply Forall_forall in Hr; [exact Hr|done]. }
  exists m. split; [done|]. apply elem_of_drop_indices. exists i. split.
  - rewrite I1. intros (j & h & _ & Hh & Hmj & Hih & _). by apply (Hother j h).
  - rewrite I2; [done|]. intros j h _ Hh Hmj E'. apply (Hother j h Hh Hmj).
    rewrite <- E'.
    eapply Forall_forall in Hgroups as (Hne & _ & Hr); [|by eapply list_elem_of_lookup_2].
    by destruct (representative_spec memories h Hne Hr) as (_ & _ & ? & _).
Qed.

(** C3. For a cluster that merges, the representative is the member
    with the highest score [importance + accessCount * 0.1], the first
    such in group order; in the output its content is the summary, its
    tags are its old tags together with ['consolidated'], its importance
    is the maximum over the cluster, and its metadata gains
    [consolidatedFrom = group size]; every other member is gone from the
    output; and the merged count is the sum over the merged clusters of
    [group size - 1]. *)
Theorem merged_cluster_representative (k : nat) (g : list nat) (summary : string) :
  NoDup (id <$> memories) →
  clusters !! k = Some g →
  fst (answer clock summarizer memories clusters w k g) = Some summary →
  10 ≤ String.length summary →
  Forall (λ m, is_nan (score m) = false) (records memories g) →
  ∃ out merged w1 p best mb r,
    summarizeClusters clock memories clusters summarizer w = (Some (out, merged), w1)
    ∧ g !! p = Some best ∧ memories !! best = Some mb
    ∧ (∀ q i m, g !! q = Some i → memories !! i = Some m →
                JS.ge (score mb) (score m) = true
                ∧ (q < p → JS.gt (score mb) (score m) = true))
    ∧ r ∈ out
    ∧ spec_consolidated mb r summary (records memories g) (length g)
                        (stamp clock summarizer memories clusters w k g)
    ∧ importance r ∈ (importance <$> records memories g)
    ∧ Forall (λ m, JS.ge (importance r) (importance m) = true) (records memories g)
    ∧ (∀ i m, i ∈ g → i ≠ best → memories !! i = Some m → id m ∉ (id <$> out))
    ∧ merged = merged_upto clock summarizer memories clusters w (length clusters).
Proof.
  intros Hids Hg Hans Hlen Hnan.
  destruct (cluster_good memories config) as [Hpd _]. fold clusters in Hpd.
  pose proof (cluster_groups memories config) as Hgroups. fold clusters in Hgroups.
  destruct (summarizeClusters_run clock summarizer memories clusters w Hids Hpd Hgroups)
    as (st & w1 & E & I1 & I2 & I3 & I4 & I5).
  assert (g ≠ [] ∧ NoDup g ∧ in_range memories g) as (Hne & Hnd & Hr).
  { eapply Forall_forall in Hgroups; [exact Hgroups|]. by eapply list_elem_of_lookup_2. }
  assert (merges clock summarizer memories clusters w k g = true) as Hm.
  { unfold merges. rewrite Hans. cbn [usable]. by apply Nat.leb_le. }
  destruct (representative_first_best memories g Hne Hr Hnan) as (p & mb & Hp & Hmb & Hbest).
  destruct (I3 k g) as (mb' & s' & Hmb' & Hs' & Hres); [by eapply lookup_lt_Some|done..|].
  rewrite Hmb in Hmb'. injection Hmb' as <-. rewrite Hans in Hs'. injection Hs' as <-.
  set (best := representative memories g) in *.
  set (r := consolidated mb summary (importance <$> records memories g) (length g)
                         (stamp clock summarizer memories clusters w k g)) in *.
  exists (drop_indices (toRemove st) (result st)), (totalMerged st), w1, p, best, mb, r.
  assert (Forall (λ x, is_nan x = false) (importance <$> records memories g)) as Himp.
  { apply Forall_fmap. eapply Forall_impl; [exact Hnan|]. intros m. apply add_not_nan. }
  assert (importance <$> records memories g ≠ []) as Hne'.
  { intros E'. apply fmap_nil_inv in E'.
    pose proof (records_length memories g Hr) as L. rewrite E' in L. by destruct g. }
  destruct (Math_max_spec _ Hne' Himp) as [Hmax Hin].
  split; [done|]. split; [done|]. split; [done|]. split; [done|].
  split; [|split; [apply consolidated_spec|split; [done|split; [|split]]]].
  - apply elem_of_drop_indices. exists best. split; [|done].
    rewrite I1. intros (j & h & _ & Hh & _ & Hbh & Hneq).
    destruct (decide (j = k)) as [->|Hjk].
    + rewrite Hg in Hh. by injection Hh as <-.
    + apply (Hpd j k h g Hh Hg Hjk best Hbh). by eapply list_elem_of_lookup_2.
  - by apply Forall_fmap in Hmax.
  - intros i m Hi Hneq Hmi Hid.
    apply list_elem_of_fmap in Hid as (r' & Hid & Hr').
    apply elem_of_drop_indices in Hr' as (i' & Hi' & Hres').
    assert (i' = i) as ->.
    { eapply NoDup_lookup; [exact Hids| |].
      - rewrite <- I5, list_lookup_fmap, Hres'. simpl. by rewrite <- Hid.
      - by rewrite list_lookup_fmap, Hmi. }
    apply Hi', I1. exists k, g. split; [by eapply lookup_lt_Some|done].
  - done.
Qed.

End MergeFacts.

(** ** Summarizer failures *)

Section FailureFacts.
Context {W : Type} (clock : Clock W).

(** A rejected promise, an empty string, or fewer than ten characters. *)
Definition unusable (answer : option string) : Prop :=
  match answer with
  | None => True
  | Some summary => String.length summary < 10
  end.

Lemma unusable_usable (answer : option string) :
  unusable answer → usable answer = false.
Proof. destruct answer as [s|]; [|done]. cbn [usable unusable]. by apply Nat.leb_gt. Qed.

(** X19. When the summarizer rejects, or answers with an empty string or
    with fewer than ten characters, the iteration for that cluster leaves
    the merged count, the working collection and the removal set as they
    were, and the loop goes on with the next cluster; when the
    identifiers of the collection are pairwise distinct, the records of
    such a cluster are all in the output of the coordinator, unchanged;
    and [consolidate] still returns a result. *)
Theorem summarizer_failure_is_local :
  (∀ (summarizer : Summarizer W) memories g rest st w,
      in_range memories g →
      unusable (fst (summarizer (texts memories g) w)) →
      merge_cluster clock summarizer memories g st w
      = (Some st, snd (summarizer (texts memories g) w))
      ∧ merge_loop clock summarizer memories (g :: rest) st w
        = merge_loop clock summarizer memories rest st
                     (snd (summarizer (texts memories g) w)))
  ∧ (∀ (summarizer : Summarizer W) memories config w k g,
        NoDup (id <$> memories) →
        cluster memories config !! k = Some g →
        unusable (fst (answer clock summarizer memories (cluster memories config) w k g)) →
        ∃ out merged w1,
          summarizeClusters clock memories (cluster memories config) summarizer w
          = (Some (out, merged), w1)
          ∧ ∀ i, i ∈ g → ∃ m, memories !! i = Some m ∧ m ∈ out)
  ∧ (∀ memories config (summarizer : option (Summarizer W)) w,
        ∃ out report w1,
          consolidate clock memories config summarizer w = (Some (out, report), w1)).
Proof.
  split; [|split].
  - intros summarizer memories g rest st w Hr Hbad.
    assert (merge_cluster clock summarizer memories g st w
            = (Some st, snd (summarizer (texts memories g) w))) as E.
    { apply merge_cluster_skip; [done|]. by apply unusable_usable. }
    split; [done|]. simpl. by rewrite E.
  - intros summarizer memories config w k g Hids Hg Hbad.
    apply (skipped_cluster_kept clock summarizer memories config w k g Hids Hg).
    by apply unusable_usable.
  - intros memories config summarizer w.
    destruct (consolidate_ok clock memories config summarizer w)
      as (out & report & w1 & E & _).
    by exists out, report, w1.
Qed.

End FailureFacts.

(** ** The theorems at work on concrete collections *)

(** A clock that always reads day ten after the epoch, in a world with no
    state; every date string denotes the epoch. *)
Definition still_clock : Clock unit :=
  mkClock unit (λ w, (864000000%float, w)) (λ w, ("1970-01-11T00:00:00.000Z", w))
          (λ _, 0%float).

Definition sample (name text : string) (vector : list float) (t : MemoryTier)
           (weight : float) : Memory :=
  mkMemory name text vector [] weight t "1970-01-01T00:00:00.000Z"
           "1970-01-01T00:00:00.000Z" 0%float None None.

(** Three warm records, close enough to the first to cluster and far
    enough from one another to survive deduplication, as in the
    summarization test. *)
Definition topic : list Memory :=
  [ sample "w1" "Topic A detail one" [1; 0]%float Warm 0.5%float;
    sample "w2" "Topic A detail two" [1; 0.5]%float Warm 0.75%float;
    sample "w3" "Topic A detail three" [1; -0.5]%float Warm 0.75%float ].

Definition fixed_summarizer : Summarizer unit :=
  λ texts w, (Some "Summary of the topic", w).

Definition failing_summarizer : Summarizer unit := λ texts w, (None, w).

Lemma topic_ids : NoDup (id <$> topic).
Proof. apply (bool_decide_unpack _). vm_compute. exact I. Defined.

Lemma merged_cluster_representative_witness :
  NoDup (id <$> topic)
  ∧ cluster topic no_config !! 0 = Some [0; 1; 2]
  ∧ fst (answer still_clock fixed_summarizer topic (cluster topic no_config) tt 0 [0; 1; 2])
    = Some "Summary of the topic"
  ∧ 10 ≤ String.length "Summary of the topic"
  ∧ Forall (λ m, is_nan (score m) = false) (records topic [0; 1; 2])
  ∧ ∃ out merged w1 p best mb r,
      summarizeClusters still_clock topic (cluster topic no_config) fixed_summarizer tt
      = (Some (out, merged), w1)
      ∧ [0; 1; 2] !! p = Some best ∧ topic !! best = Some mb
      ∧ (∀ q i m, [0; 1; 2] !! q = Some i → topic !! i = Some m →
                  JS.ge (score mb) (score m) = true
                  ∧ (q < p → JS.gt (score mb) (score m) = true))
      ∧ r ∈ out
      ∧ spec_consolidated mb r "Summary of the topic" (records topic [0; 1; 2]) 3
                          (stamp still_clock fixed_summarizer topic
                                 (cluster topic no_config) tt 0 [0; 1; 2])
      ∧ importance r ∈ (importance <$> records topic [0; 1; 2])
      ∧ Forall (λ m, JS.ge (importance r) (importance m) = true) (records topic [0; 1; 2])
      ∧ (∀ i m, i ∈ [0; 1; 2] → i ≠ best → topic !! i = Some m → id m ∉ (id <$> out))
      ∧ merged = merged_upto still_clock fixed_summarizer topic (cluster topic no_config)
                             tt (length (cluster topic no_config)).
Proof.
  assert (NoDup (id <$> topic)) as H1 by exact topic_ids.
  assert (cluster topic no_config !! 0 = Some [0; 1; 2]) as H2
    by (vm_compute; reflexivity).
  assert (fst (answer still_clock fixed_summarizer topic (cluster topic no_config)
                      tt 0 [0; 1; 2]) = Some "Summary of the topic") as H3
    by (vm_compute; reflexivity).
  assert (10 ≤ String.length "Summary of the topic") as H4 by (simpl; lia).
  assert (Forall (λ m, is_nan (score m) = false) (records topic [0; 1; 2])) as H5
    by (vm_compute; repeat constructor).
  repeat (split; [assumption|]).
  exact (merged_cluster_representative still_clock fixed_summarizer topic no_config tt
           0 [0; 1; 2] "Summary of the topic" H1 H2 H3 H4 H5).
Defined.

(** The same collection run through the coordinator: the second record
    stands for the three, with the summary as content. *)
Example topic_merged :
  fst (summarizeClusters still_clock topic (cluster topic no_config) fixed_summarizer tt)
  = Some ([consolidated (sample "w2" "Topic A detail two" [1; 0.5]%float Warm 0.75%float)
                        "Summary of the topic" [0.5; 0.75; 0.75]%float 3
                        "1970-01-11T00:00:00.000Z"], 2).
Proof. vm_compute. reflexivity. Qed.

Lemma summarizer_failure_witness :
  merge_cluster still_clock failing_summarizer topic [0; 1; 2] (mkMerge topic ∅ 0) tt
  = (Some (mkMerge topic ∅ 0), tt)
  ∧ (∃ out merged w1,
        summarizeClusters still_clock topic (cluster topic no_config) failing_summarizer tt
        = (Some (out, merged), w1)
        ∧ ∀ i, i ∈ [0; 1; 2] → ∃ m, topic !! i = Some m ∧ m ∈ out)
  ∧ (∃ out report w1,
        consolidate still_clock topic no_config (Some failing_summarizer) tt
        = (Some (out, report), w1)).
Proof.
  destruct (summarizer_failure_is_local still_clock) as (Hlocal & Hkept & Hreturns).
  split; [|split].
  - apply (Hlocal failing_summarizer topic [0; 1; 2] [] (mkMerge topic ∅ 0) tt).
    + vm_compute. repeat constructor.
    + exact I.
  - apply (Hkept failing_summarizer topic no_config tt 0 [0; 1; 2]).
    + exact topic_ids.
    + vm_compute. reflexivity.
    + exact I.
  - apply Hreturns.
Defined.

(** With a failing summarizer the three records come back as they were
    and nothing is counted as merged. *)
Example topic_unmerged :
  fst (summarizeClusters still_clock topic (cluster topic no_config) failing_summarizer tt)
  = Some (topic, 0).
Proof. vm_compute. reflexivity. Qed.

Lemma cosineSimilarity_properties_witness :
  cosineSimilarity [0; 0]%float [3; 4]%float = cosineSimilarity [3; 4]%float [0; 0]%float
  ∧ cosineSimilarity [0; 0]%float [3; 4]%float = 0%float
  ∧ cosineSimilarity [1]%float [1; 2]%float = 0%float.
Proof.
  destruct (cosineSimilarity_properties [0; 0]%float [3; 4]%float) as (Hsym & _ & _ & Hzero).
  destruct (cosineSimilarity_properties [1]%float [1; 2]%float) as (_ & Hlen & _).
  split; [exact Hsym|]. split.
  - apply Hzero; [reflexivity|]. left. split; reflexivity.
  - apply Hlen. simpl. lia.
Defined.

Lemma deduplicate_accounting_witness :
  deduplicate [sample "only" "one record" [1; 0]%float Hot 0.5%float] None
  = ([sample "only" "one record" [1; 0]%float Hot 0.5%float], 0).
Proof.
  destruct (deduplicate_accounting
              [sample "only" "one record" [1; 0]%float Hot 0.5%float] None)
    as (_ & _ & Hsmall).
  apply Hsmall. simpl. lia.
Defined.

Lemma archive_exact_witness :
  archive [sample "old" "abcdefgh" [1; 0]%float Archive 0.5%float] 0
  = ([sample "old" "abcdefgh" [1; 0]%float Archive 0.5%float], 0).
Proof.
  destruct (archive_exact [sample "old" "abcdefgh" [1; 0]%float Archive 0.5%float] 0)
    as (_ & _ & Hoff).
  apply Hoff. lia.
Defined.

Lemma cluster_invariants_witness :
  cluster [sample "a" "lonely" [1; 0]%float Warm 0.5%float] no_config = [].
Proof.
  destruct (cluster_invariants [sample "a" "lonely" [1; 0]%float Warm 0.5%float] no_config)
    as (_ & _ & _ & Hfew).
  apply Hfew. vm_compute. reflexivity.
Defined.

(** The scenarios of the test suite. *)

(** Ten days old, never accessed, importance 0, [hotDays = 7]: hot
    becomes warm and one record changed. *)
Example decay_ten_days :
  fst (decay still_clock [sample "m1" "old memory" [1; 0]%float Hot 0%float] no_config tt)
  = ([sample "m1" "old memory" [1; 0]%float Warm 0%float], 1).
Proof. vm_compute. reflexivity. Qed.

(** Importance 1 triples the threshold: the same record stays hot. *)
Example decay_important :
  fst (decay still_clock [sample "m1" "important" [1; 0]%float Hot 1%float] no_config tt)
  = ([sample "m1" "important" [1; 0]%float Hot 1%float], 0).
Proof. vm_compute. reflexivity. Qed.

(** One step per call: a hot record decades old becomes warm, not
    archive. *)
Example decay_one_step_only :
  fst (decay (mkClock unit (λ w, (864000000000%float, w))
                      (λ w, ("1997-05-19T00:00:00.000Z", w)) (λ _, 0%float))
             [sample "m1" "ancient" [1; 0]%float Hot 0%float] no_config tt)
  = ([sample "m1" "ancient" [1; 0]%float Warm 0%float], 1).
Proof. vm_compute. reflexivity. Qed.

(** Two near-identical embeddings: the higher score survives. *)
Example deduplicate_pair :
  deduplicate [sample "dup1" "HNSW enables fast search" [1; 0]%float Hot 0.5%float;
               sample "dup2" "HNSW enables fast search queries" [1; 0.0625]%float Hot 1%float]
              (Some 0.92%float)
  = ([sample "dup2" "HNSW enables fast search queries" [1; 0.0625]%float Hot 1%float], 1).
Proof. vm_compute. reflexivity. Qed.

Example cluster_topic : cluster topic no_config = [[0; 1; 2]].
Proof. vm_compute. reflexivity. Qed.

Example forget_match :
  forget [sample "m1" "match" [1; 0]%float Hot 0.5%float;
          sample "m2" "unrelated" [0; 1]%float Hot 0.5%float] [1; 0]%float (Some 0.7%float)
  = ([sample "m2" "unrelated" [0; 1]%float Hot 0.5%float], 1).
Proof. vm_compute. reflexivity. Qed.

Example consolidate_empty :
  fst (consolidate still_clock [] no_config None tt)
  = Some ([], mkReport "1970-01-11T00:00:00.000Z" 0%float
                       (mkSnapshot 0 (mkCounts 0 0 0 0)) (mkSnapshot 0 (mkCounts 0 0 0 0))
                       0 0 0 0 0).
Proof. vm_compute. reflexivity. Qed.

Example consolidate_topic :
  (λ r, (length (fst r), clustersFound (snd r), summarized (snd r)))
    <$> fst (consolidate still_clock topic no_config (Some fixed_summarizer) tt)
  = Some (1, 1, 2).
Proof. vm_compute. reflexivity. Qed.

Example archive_truncates :
  archive [sample "old" "abcdefgh" [1; 0]%float Archive 0.5%float] 3
  = ([truncated 3 (sample "old" "abcdefgh" [1; 0]%float Archive 0.5%float)], 1)
  ∧ content (truncated 3 (sample "old" "abcdefgh" [1; 0]%float Archive 0.5%float))
    = "abc...".
Proof. split; vm_compute; reflexivity. Qed.

(** Two records under one identifier, and a record whose importance is
    NaN. *)
Definition twins : list Memory :=
  [ sample "x" "first" [1; 0]%float Warm 0.25%float;
    sample "x" "second" [1; 0.5]%float Warm 0.75%float;
    sample "y" "third" [1; -0.5]%float Warm 0.5%float ].

Definition unranked : list Memory :=
  [ sample "a" "first" [1; 0]%float Warm 1%float;
    sample "b" "second" [1; 0.5]%float Warm nan;
    sample "c" "third" [1; -0.5]%float Warm 0.5%float ].

(** C3 as stated fails.  With two records under one identifier the
    cluster merges, its representative is the second record, and the
    output is that record with its old content: the summary was written to
    the first record, which is then removed.  With a NaN score in the
    group the representative is the third record although the first has a
    higher score. *)
Lemma merged_cluster_needs_distinct_ranked :
  (cluster twins no_config = [[0; 1; 2]]
   ∧ fst (answer still_clock fixed_summarizer twins (cluster twins no_config) tt 0 [0; 1; 2])
     = Some "Summary of the topic"
   ∧ representative twins [0; 1; 2] = 1
   ∧ fst (summarizeClusters still_clock twins (cluster twins no_config) fixed_summarizer tt)
     = Some ([sample "x" "second" [1; 0.5]%float Warm 0.75%float], 2)
   ∧ content (sample "x" "second" [1; 0.5]%float Warm 0.75%float) ≠ "Summary of the topic")
  ∧ (cluster unranked no_config = [[0; 1; 2]]
     ∧ representative unranked [0; 1; 2] = 2
     ∧ JS.gt (score (sample "a" "first" [1; 0]%float Warm 1%float))
             (score (sample "c" "third" [1; -0.5]%float Warm 0.5%float)) = true).
Proof.
  split.
  - split; [vm_compute; reflexivity|]. split; [vm_compute; reflexivity|].
    split; [vm_compute; reflexivity|]. split; [vm_compute; reflexivity|].
    intros E. vm_compute in E. discriminate.
  - split; [vm_compute; reflexivity|]. split; vm_compute; reflexivity.
Qed.

(** Two topics of three warm records each; the first record of the
    second topic carries the identifier of the first record of the first
    topic. *)
Definition shared_id : list Memory :=
  topic ++ [ sample "w1" "Topic B detail one" [0; 1]%float Warm 0.75%float;
             sample "w5" "Topic B detail two" [0.5; 1]%float Warm 0.5%float;
             sample "w6" "Topic B detail three" [-0.5; 1]%float Warm 0.5%float ].

(** A summarizer that rejects the texts of topic A and summarizes every
    other group. *)
Definition moody_summarizer : Summarizer unit :=
  λ texts w,
    match texts with
    | t :: _ => if String.prefix "Topic A" t then (None, w)
                else (Some "Summary of topic B", w)
    | [] => (None, w)
    end.

(** C2 fails on the code.  The clusters of [shared_id] are the two
    topics.  The summarizer rejects the first and summarizes the second,
    whose representative is the record at position 3.  The coordinator
    looks that record up by identifier and finds position 0: the first
    record of the cluster whose summarization failed gets the summary of
    the other cluster, its tag and its importance, and is no longer in
    the output as it was, while the representative keeps its old
    content.  The same happens through [consolidate]. *)
Theorem failed_cluster_overwritten :
  cluster shared_id no_config = [[0; 1; 2]; [3; 4; 5]]
  ∧ fst (answer still_clock moody_summarizer shared_id (cluster shared_id no_config)
                tt 0 [0; 1; 2]) = None
  ∧ representative shared_id [3; 4; 5] = 3
  ∧ (∃ out,
        fst (summarizeClusters still_clock shared_id (cluster shared_id no_config)
                               moody_summarizer tt)
        = Some (out, 2)
        ∧ id <$> out = ["w1"; "w2"; "w3"; "w1"]
        ∧ content <$> out
          = ["Summary of topic B"; "Topic A detail two"; "Topic A detail three";
             "Topic B detail one"]
        ∧ (tags <$> out) !! 0 = Some ["consolidated"]
        ∧ shared_id !! 0 = Some (sample "w1" "Topic A detail one" [1; 0]%float Warm 0.5%float)
        ∧ (sample "w1" "Topic A detail one" [1; 0]%float Warm 0.5%float ∉ out))
  ∧ (∃ out report,
        fst (consolidate still_clock shared_id no_config (Some moody_summarizer) tt)
        = Some (out, report)
        ∧ content <$> out
          = ["Summary of topic B"; "Topic A detail two"; "Topic A detail three";
             "Topic B detail one"]
        ∧ clustersFound report = 2 ∧ summarized report = 2).
Proof.
  split; [vm_compute; reflexivity|]. split; [vm_compute; reflexivity|].
  split; [vm_compute; reflexivity|]. split.
  - eexists. split; [vm_compute; reflexivity|].
    split; [vm_compute; reflexivity|]. split; [vm_compute; reflexivity|].
    split; [vm_compute; reflexivity|]. split; [reflexivity|].
    intros H. repeat (apply elem_of_cons in H as [H|H]; [discriminate H|]).
    by apply elem_of_nil in H.
  - eexists _, _. split; [vm_compute; reflexivity|].
    split; [vm_compute; reflexivity|]. split; vm_compute; reflexivity.
Qed.

(** * Further properties of the engine *)

(** ** The tier snapshot of the report *)

Definition count_tier (t : MemoryTier) (ms : list Memory) : nat :=
  length (List.filter (λ m, bool_decide (tier m = t)) ms).

Definition counts_total (c : TierCounts) : nat :=
  n_hot c + n_warm c + n_cold c + n_archive c.

Lemma countByTier_from (c : TierCounts) (ms : list Memory) :
  let r := foldl (λ c m, bump c (tier m)) c ms in
  n_hot r = n_hot c + count_tier Hot ms
  ∧ n_warm r = n_warm c + count_tier Warm ms
  ∧ n_cold r = n_cold c + count_tier Cold ms
  ∧ n_archive r = n_archive c + count_tier Archive ms.
Proof.
  revert c. induction ms as [|m ms IH]; intros c; simpl.
  { unfold count_tier; simpl. lia. }
  destruct (IH (bump c (tier m))) as (H1 & H2 & H3 & H4).
  rewrite H1, H2, H3, H4. unfold count_tier. simpl.
  destruct (tier m); simpl; lia.
Qed.

Lemma count_tier_total (ms : list Memory) :
  count_tier Hot ms + count_tier Warm ms + count_tier Cold ms + count_tier Archive ms
  = length ms.
Proof.
  unfold count_tier. induction ms as [|m ms IH]; simpl; [done|].
  destruct (tier m); simpl; lia.
Qed.

Lemma countByTier_total (memories : list Memory) :
  counts_total (countByTier memories) = length memories.
Proof.
  destruct (countByTier_from (mkCounts 0 0 0 0) memories) as (H1 & H2 & H3 & H4).
  unfold countByTier, counts_total. simpl in *.
  rewrite H1, H2, H3, H4. apply count_tier_total.
Qed.

(** X1. [countByTier] counts, for each tier, the records of that tier, and
    the four counts add up to the size of the collection. *)
Theorem countByTier_counts (memories : list Memory) :
  n_hot (countByTier memories) = count_tier Hot memories
  ∧ n_warm (countByTier memories) = count_tier Warm memories
  ∧ n_cold (countByTier memories) = count_tier Cold memories
  ∧ n_archive (countByTier memories) = count_tier Archive memories
  ∧ counts_total (countByTier memories) = length memories.
Proof.
  destruct (countByTier_from (mkCounts 0 0 0 0) memories) as (H1 & H2 & H3 & H4).
  unfold countByTier, counts_total. simpl in *.
  rewrite H1, H2, H3, H4. repeat split; try done. apply count_tier_total.
Qed.

(** ** The merged count is the number of records removed *)

Lemma mark_others_size (best : nat) (g : list nat) (R : gset nat) :
  NoDup g → best ∈ g → (∀ i, i ∈ g → i ∉ R) →
  size (mark_others best g R) = size R + (length g - 1).
Proof.
  intros Hnd Hbest Hfresh.
  assert (mark_others best g R = R ∪ (list_to_set g ∖ {[best]})) as ->.
  { apply set_eq. intros x.
    rewrite elem_of_mark_others, elem_of_union, elem_of_difference,
      elem_of_list_to_set, elem_of_singleton. tauto. }
  rewrite size_union.
  - rewrite size_difference, size_list_to_set, size_singleton; [done|done|].
    intros x. rewrite elem_of_singleton, elem_of_list_to_set. by intros ->.
  - intros x Hx. rewrite elem_of_difference, elem_of_list_to_set.
    intros [Hxg _]. by apply (Hfresh x).
Qed.

Section MergeSizes.
Context {W : Type} (clock : Clock W) (summarizer : Summarizer W).
Implicit Types (memories : list Memory) (st : MergeState) (g : list nat).

(** One iteration either leaves the locals alone or marks the members
    other than the representative and counts them. *)
Lemma merge_cluster_shape memories g st w :
  in_range memories g →
  ∃ st1 w1,
    merge_cluster clock summarizer memories g st w = (Some st1, w1)
    ∧ (st1 = st
       ∨ ∃ best, best ∈ g
                 ∧ toRemove st1 = mark_others best g (toRemove st)
                 ∧ totalMerged st1 = totalMerged st + (length g - 1)
                 ∧ length (result st1) = length (result st)).
Proof.
  intros Hr. unfold merge_cluster. rewrite (mapM_records _ _ Hr).
  destruct (summarizer _ w) as [[summary|] w1]; [|eexists _, _; split; [done|by left]].
  unfold merge_group. destruct (_ || _); [eexists _, _; split; [done|by left]|].
  destruct (reduce_best _) as [[best mbest]|] eqn:Hbest;
    [|eexists _, _; split; [done|by left]].
  apply reduce_best_elem, zip_records_elem in Hbest as [Hbest _]; [|done].
  destruct (list_find _ _) as [[k r]|].
  - destruct (Date_iso clock w1) as [iso w2]. eexists _, _. split; [done|].
    right. exists best. simpl. by rewrite length_insert.
  - eexists _, _. split; [done|]. right. by exists best.
Qed.

Lemma merge_loop_sizes memories (clusters : list (list nat)) st w :
  pairwise_disjoint clusters →
  Forall (λ g, g ≠ [] ∧ NoDup g ∧ in_range memories g) clusters →
  (∀ i g, i ∈ toRemove st → g ∈ clusters → i ∉ g) →
  below (length memories) (toRemove st) →
  ∃ st1 w1,
    merge_loop clock summarizer memories clusters st w = (Some st1, w1)
    ∧ size (toRemove st1) + totalMerged st = size (toRemove st) + totalMerged st1
    ∧ length (result st1) = length (result st)
    ∧ below (length memories) (toRemove st1).
Proof.
  intros Hpd Hgood. revert st w Hpd.
  induction Hgood as [|g rest (Hne & Hnd & Hr) _ IH]; intros st w Hpd Hfresh Hbelow; simpl.
  { by eexists _, _. }
  assert (pairwise_disjoint rest) as Hpd'.
  { intros i j a b Ha Hb Hij. by apply (Hpd (S i) (S j) a b); [..|lia]. }
  assert (∀ h, h ∈ rest → g ## h) as Hgh.
  { intros h [j Hj]%list_elem_of_lookup. by apply (Hpd 0 (S j) g h). }
  destruct (merge_cluster_shape memories g st w Hr) as (st1 & w1 & -> & Hshape).
  destruct Hshape as [->|(best & Hbest & HR & HT & HL)].
  - apply IH; [done| |done]. intros i h Hi Hh. apply Hfresh; [done|].
    by apply list_elem_of_further.
  - destruct (IH st1 w1 Hpd') as (st2 & w2 & E & Hsz & Hlen & Hb2).
    + intros i h Hi Hh. rewrite HR in Hi. apply elem_of_mark_others in Hi as [Hi|[Hi _]].
      * apply Hfresh; [done|]. by apply list_elem_of_further.
      * intros Hih. by apply (Hgh h Hh i).
    + intros i. rewrite HR, elem_of_mark_others. intros [Hi|[Hi _]]; [by apply Hbelow|].
      eapply Forall_forall in Hr; [exact Hr|done].
    + exists st2, w2. split; [done|]. split; [|split; [congruence|done]].
      rewrite HR, HT in Hsz. rewrite mark_others_size in Hsz; [lia|done..|].
      intros i Hi Hi'. apply (Hfresh i g Hi'); [apply list_elem_of_here|done].
Qed.

(** On the clusters that [cluster] returns the coordinator always
    returns, and the merged count it reports is the number of records
    missing from its output. *)
Lemma summarizeClusters_length memories (config : ConsolidateConfig) w :
  ∃ out merged w1,
    summarizeClusters clock memories (cluster memories config) summarizer w
    = (Some (out, merged), w1)
    ∧ length out + merged = length memories.
Proof.
  destruct (cluster_good memories config) as [Hpd _].
  destruct (merge_loop_sizes memories (cluster memories config) (mkMerge memories ∅ 0) w)
    as (st & w1 & E & Hsz & Hlen & Hb); [done|apply cluster_groups| | |].
  { intros i g Hi. by apply elem_of_empty in Hi. }
  { intros i Hi. by apply elem_of_empty in Hi. }
  unfold summarizeClusters. rewrite E. eexists _, _, _. split; [done|].
  cbn [toRemove totalMerged result] in *. rewrite size_empty in Hsz.
  pose proof (drop_indices_length (toRemove st) (result st)) as Hd.
  rewrite Hlen in Hd. specialize (Hd Hb). lia.
Qed.

End MergeSizes.

(** ** The report adds up *)

Lemma deduplicate_length (memories : list Memory) (threshold : option float) :
  length (fst (deduplicate memories threshold)) + snd (deduplicate memories threshold)
  = length memories.
Proof.
  destruct (decide (length memories < 2)) as [Hn|Hn].
  - rewrite deduplicate_small by done. simpl. lia.
  - rewrite deduplicate_unfold by lia. simpl.
    apply drop_indices_length, dedup_outer_below; [apply indexed_below|].
    intros k Hk. by apply elem_of_empty in Hk.
Qed.

Lemma filter_length_le {A : Type} (f : A → bool) (xs : list A) :
  length (List.filter f xs) ≤ length xs.
Proof. apply sublist_length, filter_sublist. Qed.

Lemma archive_length (memories : list Memory) (n : Z) :
  length (fst (archive memories n)) = length memories
  ∧ snd (archive memories n) ≤ length memories.
Proof.
  destruct (Z.leb_spec n 0) as [Hle|Hpos].
  - rewrite archive_disabled by done. simpl. lia.
  - rewrite archive_enabled by done. simpl. rewrite length_fmap.
    split; [done|apply filter_length_le].
Qed.

Section ReportFacts.
Context {W : Type} (clock : Clock W).

Lemma decay_length (memories : list Memory) (config : ConsolidateConfig) (w : W) :
  length (fst (fst (decay clock memories config w))) = length memories
  ∧ snd (fst (decay clock memories config w)) ≤ length memories.
Proof.
  rewrite decay_unfold. simpl. rewrite length_fmap.
  split; [done|apply filter_length_le].
Qed.

Lemma cluster_and_summarize_length (current : list Memory) (cfg : RequiredConfig)
      (summarizer : option (Summarizer W)) (w : W) :
  ∃ out found merged w1,
    cluster_and_summarize clock current cfg summarizer w
    = (Some (out, found, merged), w1)
    ∧ length out + merged = length current
    ∧ found = match summarizer with
              | Some _ => length (cluster current (as_config cfg))
              | None => 0
              end
    ∧ (summarizer = None → merged = 0 ∧ out = current ∧ w1 = w).
Proof.
  unfold cluster_and_summarize. destruct summarizer as [s|].
  - destruct (0 <? _) eqn:E.
    + destruct (summarizeClusters_length clock s current (as_config cfg) w)
        as (out & merged & w1 & -> & Hlen).
      by eexists _, _, _, _.
    + eexists _, _, _, _. split; [done|]. split; [simpl; lia|]. done.
  - eexists _, _, _, _. split; [done|]. split; [simpl; lia|]. done.
Qed.

(** X2. [consolidate] always returns a report whose numbers agree: the
    totals are the sizes of the input and of the output, each tier
    snapshot adds up to its total, the records missing from the output
    are exactly the deduplicated and the merged ones, the decay and
    archive counters do not exceed the collection, and without a
    summarizer no cluster is reported. *)
Theorem report_adds_up (memories : list Memory) (config : ConsolidateConfig)
        (summarizer : option (Summarizer W)) (w : W) :
  ∃ out report w1,
    consolidate clock memories config summarizer w = (Some (out, report), w1)
    ∧ total (before report) = length memories
    ∧ total (after report) = length out
    ∧ counts_total (byTier (before report)) = total (before report)
    ∧ counts_total (byTier (after report)) = total (after report)
    ∧ total (after report) + deduplicated report + summarized report
      = total (before report)
    ∧ decayed report ≤ total (before report)
    ∧ archived report ≤ total (after report)
    ∧ (summarizer = None → clustersFound report = 0 ∧ summarized report = 0).
Proof.
  unfold consolidate. destruct (Date_now clock w) as [start w0].
  set (cfg := merge_config DEFAULTS config).
  destruct (decay_length memories (as_config cfg) w0) as [Hd1 Hd2].
  destruct (decay clock memories (as_config cfg) w0) as [[aged changed] w1].
  cbn [fst snd] in *.
  pose proof (deduplicate_length aged (Some (r_deduplicateThreshold cfg))) as Hdd.
  destruct (cluster_and_summarize_length
              (fst (deduplicate aged (Some (r_deduplicateThreshold cfg))))
              cfg summarizer w1)
    as (out & found & merged & w2 & -> & Hlen & Hfound & Hnone).
  destruct (archive_length out (r_archiveTruncateLength cfg)) as [Ha1 Ha2].
  destruct (Date_iso clock w2) as [stamp w3]. destruct (Date_now clock w3) as [finish w4].
  eexists _, _, _. split; [done|]. cbn [total before after byTier deduplicated summarized
    decayed archived clustersFound].
  pose proof (countByTier_total memories) as Hc1.
  pose proof (countByTier_total (fst (archive out (r_archiveTruncateLength cfg)))) as Hc2.
  repeat split; try done; try lia.
  - subst summarizer. by rewrite Hfound.
  - by destruct Hnone.
Qed.

(** X3. The merged count that [summarizeClusters] returns on the clusters of
    [cluster] is the number of records it removed, whether or not the
    identifiers are distinct. *)
Theorem merged_count_is_removed (summarizer : Summarizer W) (memories : list Memory)
        (config : ConsolidateConfig) (w : W) :
  ∃ out merged w1,
    summarizeClusters clock memories (cluster memories config) summarizer w
    = (Some (out, merged), w1)
    ∧ length out + merged = length memories
    ∧ (id <$> out) `sublist_of` (id <$> memories).
Proof.
  destruct (summarizeClusters_length clock summarizer memories config w)
    as (out & merged & w1 & E & Hlen).
  destruct (summarizeClusters_ok clock summarizer memories (cluster memories config) w)
    as (out' & merged' & w1' & E' & Hsub); [apply cluster_in_range|].
  rewrite E in E'. injection E' as <- <- <-.
  by exists out, merged, w1.
Qed.

End ReportFacts.

(** ** What deduplicate removes, and what it keeps *)

Section DedupRemoval.
Variable memories : list Memory.
Variable t : float.
Implicit Types (R : gset nat) (ims : list (nat * Memory)).

(** A stretch of the indexed array: every pair is a position with its
    record, and the positions increase. *)
Definition rising ims : Prop :=
  ∀ a b p q, ims !! a = Some p → ims !! b = Some q → a < b → fst p < fst q.

Definition stretch ims : Prop :=
  Forall (λ p, memories !! fst p = Some (snd p)) ims ∧ rising ims.

Lemma stretch_cons p ims :
  stretch (p :: ims) →
  memories !! fst p = Some (snd p) ∧ Forall (λ q, fst p < fst q) ims ∧ stretch ims.
Proof.
  intros [Hl Hs]. inversion Hl; subst. split; [done|]. split; [|split; [done|]].
  - apply Forall_forall. intros q [b Hb]%list_elem_of_lookup.
    apply (Hs 0 (S b) p q); [done|done|lia].
  - intros a b x y Ha Hb Hab. apply (Hs (S a) (S b) x y); [done|done|lia].
Qed.

Lemma indexed_stretch : stretch (indexed memories).
Proof.
  split.
  - apply Forall_forall. intros [i m]. apply indexed_lookup.
  - assert (∀ a p, indexed memories !! a = Some p → fst p = a) as Hpos.
    { intros a p Hp. apply lookup_zip_with_Some in Hp as (i & m & -> & Hi & _).
      apply lookup_seq in Hi as [-> _]. done. }
    intros a b x y Ha Hb Hab. rewrite (Hpos a x Ha), (Hpos b y Hb). done.
Qed.

(** The reason a position is in the removal set: a record [l] whose
    similarity with [k] exceeds the threshold and which wins the
    comparison of scores, the earlier record winning ties. *)
Definition beaten_by (k l : nat) : Prop :=
  ∃ mk ml,
    memories !! k = Some mk ∧ memories !! l = Some ml
    ∧ ((l < k
        ∧ JS.gt (cosineSimilarity (embedding ml) (embedding mk)) t = true
        ∧ JS.ge (score ml) (score mk) = true)
       ∨ (k < l
          ∧ JS.gt (cosineSimilarity (embedding mk) (embedding ml)) t = true
          ∧ JS.ge (score mk) (score ml) = false)).

Definition justified R : Prop := ∀ k, k ∈ R → ∃ l, beaten_by k l.

Lemma dedup_inner_justified i mi ims R :
  memories !! i = Some mi → Forall (λ q, i < fst q) ims → stretch ims →
  justified R → justified (dedup_inner t i mi ims R).
Proof.
  intros Hi Hlt [Hl _]. revert R.
  induction ims as [|[j mj] rest IH]; intros R HR; simpl; [done|].
  inversion Hl as [|? ? Hj Hl']; subst. inversion Hlt as [|? ? Hij Hlt']; subst.
  simpl in Hj, Hij.
  destruct (bool_decide (j ∈ R)); [by apply IH|].
  destruct (JS.gt _ t) eqn:Hsim; [|by apply IH].
  destruct (JS.ge (score mi) (score mj)) eqn:Hsc.
  - apply IH; [done..|]. intros k [->%elem_of_singleton|Hk]%elem_of_union; [|by apply HR].
    exists i, mj, mi. split; [done|]. split; [done|]. by left.
  - intros k [->%elem_of_singleton|Hk]%elem_of_union; [|by apply HR].
    exists j, mi, mj. split; [done|]. split; [done|]. by right.
Qed.

Lemma dedup_outer_justified ims R :
  stretch ims → justified R → justified (dedup_outer t ims R).
Proof.
  revert R. induction ims as [|[i mi] rest IH]; intros R Hs HR; simpl; [done|].
  apply stretch_cons in Hs as (Hi & Hlt & Hs).
  destruct (bool_decide (i ∈ R)); [by apply IH|].
  apply IH; [done|]. by apply dedup_inner_justified.
Qed.

(** A record that loses to no other is never marked: every earlier
    record fails [>=] against it and it passes [>=] against every later
    one. *)
Definition unbeaten (b : nat) (mb : Memory) : Prop :=
  memories !! b = Some mb
  ∧ (∀ i mi, i < b → memories !! i = Some mi → JS.ge (score mi) (score mb) = false)
  ∧ (∀ j mj, b < j → memories !! j = Some mj → JS.ge (score mb) (score mj) = true).

Lemma justified_unbeaten R b mb : justified R → unbeaten b mb → b ∉ R.
Proof.
  intros HR (Hb & Hearlier & Hlater) Hin.
  destruct (HR b Hin) as (l & mk & ml & Hk & Hl & Hcase).
  rewrite Hb in Hk. injection Hk as <-.
  destruct Hcase as [(Hlt & _ & Hge)|(Hlt & _ & Hge)].
  - by rewrite (Hearlier l ml Hlt Hl) in Hge.
  - by rewrite (Hlater l ml Hlt Hl) in Hge.
Qed.

Lemma dedup_set_justified : justified (dedup_outer t (indexed memories) ∅).
Proof.
  apply dedup_outer_justified; [apply indexed_stretch|].
  intros k Hk. by apply elem_of_empty in Hk.
Qed.

End DedupRemoval.

Section DedupSurvivor.
Variable memories : list Memory.
Variable t : float.
Implicit Types (R : gset nat) (ims : list (nat * Memory)).

Lemma dedup_inner_adds i mi ims R k :
  k ∈ dedup_inner t i mi ims R → k ∈ R ∨ k = i ∨ k ∈ (fst <$> ims).
Proof.
  revert R. induction ims as [|[j mj] rest IH]; intros R; simpl; [by left|].
  assert (∀ R', k ∈ dedup_inner t i mi rest R' → (k ∈ R' → k ∈ R ∨ k = j) →
                k ∈ R ∨ k = i ∨ k ∈ j :: (fst <$> rest)) as Hrec.
  { intros R' Hk HR'. destruct (IH R' Hk) as [Hk'|[->|Hk']]; [|by auto|].
    - destruct (HR' Hk') as [?| ->]; [by left|]. right. right. apply list_elem_of_here.
    - right. right. by apply list_elem_of_further. }
  destruct (bool_decide (j ∈ R)); [intros Hk; apply (Hrec R Hk); by left|].
  destruct (JS.gt _ t); [|intros Hk; apply (Hrec R Hk); by left].
  destruct (JS.ge _ _).
  - intros Hk. apply (Hrec _ Hk).
    intros [->%elem_of_singleton|?]%elem_of_union; [by right|by left].
  - intros [->%elem_of_singleton|?]%elem_of_union; [right; by left|by left].
Qed.

Lemma dedup_outer_adds ims R k :
  k ∈ dedup_outer t ims R → k ∈ R ∨ k ∈ (fst <$> ims).
Proof.
  revert R. induction ims as [|[i mi] rest IH]; intros R; simpl; [by left|].
  destruct (bool_decide (i ∈ R)).
  - intros Hk. destruct (IH R Hk); [by left|]. right. by apply list_elem_of_further.
  - intros Hk. destruct (IH _ Hk) as [Hk'|Hk'].
    + destruct (dedup_inner_adds i mi rest R k Hk') as [?|[->|?]].
      * by left.
      * right. apply list_elem_of_here.
      * right. by apply list_elem_of_further.
    + right. by apply list_elem_of_further.
Qed.

(** When the inner loop marks its own record, the record that beat it is
    left unmarked. *)
Lemma dedup_inner_break i mi ims R :
  i ∉ R → Forall (λ q, i < fst q) ims →
  i ∈ dedup_inner t i mi ims R →
  ∃ q, q ∈ ims ∧ fst q ∉ dedup_inner t i mi ims R.
Proof.
  intros Hi Hlt. revert R Hi.
  induction Hlt as [|[j mj] rest Hij _ IH]; intros R Hi; simpl.
  { done. }
  simpl in Hij.
  assert (∀ R', i ∉ R' → i ∈ dedup_inner t i mi rest R' →
                ∃ q, q ∈ (j, mj) :: rest ∧ fst q ∉ dedup_inner t i mi rest R') as Hrec.
  { intros R' Hi' Hin. destruct (IH R' Hi' Hin) as (q & Hq & Hq').
    exists q. split; [by apply list_elem_of_further|done]. }
  destruct (bool_decide (j ∈ R)) eqn:Hj; [by apply Hrec|].
  destruct (JS.gt _ t); [|by apply Hrec].
  destruct (JS.ge _ _).
  - apply Hrec. rewrite elem_of_union, elem_of_singleton. intros [?|?]; [lia|done].
  - intros _. exists (j, mj). split; [apply list_elem_of_here|]. simpl.
    apply bool_decide_eq_false in Hj.
    rewrite elem_of_union, elem_of_singleton. intros [?|?]; [lia|done].
Qed.

Lemma dedup_outer_survivor ims R :
  stretch memories ims →
  (∃ p, p ∈ ims ∧ fst p ∉ R) →
  ∃ p, p ∈ ims ∧ fst p ∉ dedup_outer t ims R.
Proof.
  revert R. induction ims as [|[i mi] rest IH]; intros R Hs (p & Hp & HpR); simpl.
  { by apply elem_of_nil in Hp. }
  apply stretch_cons in Hs as (_ & Hlt & Hs). simpl in Hlt.
  assert (∀ R', (∃ q, q ∈ rest ∧ fst q ∉ R') →
                ∃ q, q ∈ (i, mi) :: rest ∧ fst q ∉ dedup_outer t rest R') as Hrec.
  { intros R' Hq. destruct (IH R' Hs Hq) as (q & Hq1 & Hq2).
    exists q. split; [by apply list_elem_of_further|done]. }
  assert (i ∉ (fst <$> rest)) as Hfresh.
  { intros (q & Hq1 & Hq2)%list_elem_of_fmap.
    eapply Forall_forall in Hlt; [|exact Hq2]. lia. }
  destruct (bool_decide (i ∈ R)) eqn:Hi.
  - apply bool_decide_eq_true in Hi. apply Hrec. exists p. split; [|done].
    apply elem_of_cons in Hp as [->|?]; [done|done].
  - apply bool_decide_eq_false in Hi.
    destruct (decide (i ∈ dedup_inner t i mi rest R)) as [Hin|Hout].
    + apply Hrec. by apply dedup_inner_break.
    + exists (i, mi). split; [apply list_elem_of_here|]. simpl.
      intros Hfin. by destruct (dedup_outer_adds _ _ _ Hfin).
Qed.

End DedupSurvivor.

(** X4. Every record [deduplicate] removes has a near-duplicate that beat
    it: a record whose similarity with it exceeds the threshold and whose
    score is higher, or equal and earlier.  So when no two records are
    more similar than the threshold, the collection comes back unchanged
    with [removed = 0]. *)
Theorem deduplicate_removes_only_beaten (memories : list Memory)
        (threshold : option float) :
  let t := default 0.92%float threshold in
  (∃ R : gset nat,
      deduplicate memories threshold = (drop_indices R memories, size R)
      ∧ ∀ k, k ∈ R → ∃ l, beaten_by memories t k l)
  ∧ ((∀ i j mi mj, i < j → memories !! i = Some mi → memories !! j = Some mj →
                   JS.gt (cosineSimilarity (embedding mi) (embedding mj)) t = false) →
     deduplicate memories threshold = (memories, 0)).
Proof.
  intros t.
  assert (∃ R : gset nat,
             deduplicate memories threshold = (drop_indices R memories, size R)
             ∧ ∀ k, k ∈ R → ∃ l, beaten_by memories t k l) as (R & E & HR).
  { destruct (decide (length memories < 2)) as [Hn|Hn].
    - exists ∅. rewrite deduplicate_small by done.
      rewrite drop_indices_empty, size_empty. split; [done|].
      intros k Hk. by apply elem_of_empty in Hk.
    - eexists. rewrite deduplicate_unfold by lia. split; [reflexivity|].
      apply dedup_set_justified. }
  split; [by exists R|]. intros Hfar.
  assert (R = ∅) as ->.
  { apply set_eq. intros k. split; [|by intros ?%elem_of_empty].
    intros Hk. exfalso.
    destruct (HR k Hk) as (l & mk & ml & Hmk & Hml & [(Hlt & Hsim & _)|(Hlt & Hsim & _)]).
    - by rewrite (Hfar l k ml mk Hlt Hml Hmk) in Hsim.
    - by rewrite (Hfar k l mk ml Hlt Hmk Hml) in Hsim. }
  by rewrite E, drop_indices_empty, size_empty.
Qed.

(** X5. A record that loses the comparison of scores to no other record,
    earlier records included on ties, is in the output of [deduplicate],
    whatever the similarities. *)
Theorem deduplicate_keeps_unbeaten (memories : list Memory) (threshold : option float)
        (b : nat) (mb : Memory) :
  unbeaten memories b mb → mb ∈ fst (deduplicate memories threshold).
Proof.
  intros Hb.
  destruct (decide (length memories < 2)) as [Hn|Hn].
  - rewrite deduplicate_small by done. simpl.
    destruct Hb as (Hb & _). by eapply list_elem_of_lookup_2.
  - rewrite deduplicate_unfold by lia. simpl.
    apply elem_of_drop_indices. exists b. split; [|by destruct Hb].
    eapply justified_unbeaten; [apply dedup_set_justified|exact Hb].
Qed.

(** X6. [deduplicate] never empties a collection: of a non-empty input at
    least one record is returned. *)
Theorem deduplicate_leaves_one (memories : list Memory) (threshold : option float) :
  memories ≠ [] → fst (deduplicate memories threshold) ≠ [].
Proof.
  intros Hne.
  destruct (decide (length memories < 2)) as [Hn|Hn].
  - by rewrite deduplicate_small.
  - rewrite deduplicate_unfold by lia. simpl.
    destruct (dedup_outer_survivor memories (default 0.92%float threshold)
                (indexed memories) ∅) as ([i m] & Hp & Hout).
    + apply indexed_stretch.
    + destruct memories as [|m0 ms]; [done|]. exists (0, m0).
      split; [apply list_elem_of_here|]. simpl. apply not_elem_of_empty.
    + simpl in Hout. apply indexed_lookup in Hp.
      intros E. assert (m ∈ drop_indices
        (dedup_outer (default 0.92%float threshold) (indexed memories) ∅) memories) as Hin.
      { apply elem_of_drop_indices. by exists i. }
      rewrite E in Hin. by apply elem_of_nil in Hin.
Qed.

(** ** What a cluster is made of *)

Section ClusterShape.
Implicit Types (A : gset nat) (g : list nat) (cands : list (nat * Memory)).

(** The scan appends to the group, and only candidates whose similarity
    to the seed reaches the threshold. *)
Lemma cluster_grow_similar thr seed cands g A :
  ∃ added : list nat,
    fst (cluster_grow thr seed cands g A) = (g ++ added)%list
    ∧ Forall (λ i, ∃ m, (i, m) ∈ cands
                        ∧ JS.ge (cosineSimilarity (embedding seed) (embedding m)) thr
                          = true) added.
Proof.
  revert g A. induction cands as [|[j mj] rest IH]; intros g A; simpl.
  { exists []. by rewrite app_nil_r. }
  assert (∀ (g' : list nat) A', ∃ added : list nat,
             fst (cluster_grow thr seed rest g' A') = (g' ++ added)%list
             ∧ Forall (λ i, ∃ m, (i, m) ∈ (j, mj) :: rest
                                 ∧ JS.ge (cosineSimilarity (embedding seed) (embedding m))
                                         thr = true) added) as Hrec.
  { intros g' A'. destruct (IH g' A') as (added & E & Hall). exists added.
    split; [done|]. eapply Forall_impl; [exact Hall|].
    intros i (m & Hm & Hsim). exists m. split; [by apply list_elem_of_further|done]. }
  destruct (bool_decide (j ∈ A)); [apply Hrec|].
  destruct (JS.ge _ thr) eqn:Hsim; [|apply Hrec].
  destruct (Hrec (g ++ [j])%list ({[j]} ∪ A)) as (added & E & Hall).
  exists (j :: added). split; [by rewrite E, <- app_assoc|].
  constructor; [|done]. exists mj. split; [apply list_elem_of_here|done].
Qed.

Definition seeded (thr : float) cands g : Prop :=
  ∃ seedIdx seed others,
    g = seedIdx :: others
    ∧ (seedIdx, seed) ∈ cands
    ∧ Forall (λ i, ∃ m, (i, m) ∈ cands
                        ∧ JS.ge (cosineSimilarity (embedding seed) (embedding m)) thr
                          = true) others.

Lemma cluster_seeds_seeded cfg cands seeds A cs :
  (∀ q, q ∈ seeds → q ∈ cands) →
  Forall (seeded (r_clusterThreshold cfg) cands) cs →
  Forall (seeded (r_clusterThreshold cfg) cands) (cluster_seeds cfg cands seeds A cs).
Proof.
  revert A cs. induction seeds as [|[i mi] rest IH]; intros A cs Hin Hcs; simpl; [done|].
  assert (∀ q, q ∈ rest → q ∈ cands) as Hin'.
  { intros q Hq. apply Hin. by apply list_elem_of_further. }
  destruct (bool_decide (i ∈ A)); [by apply IH|].
  destruct (cluster_grow_similar (r_clusterThreshold cfg) mi cands [i] ({[i]} ∪ A))
    as (added & E & Hall).
  destruct (cluster_grow _ _ _ _ _) as [g A1]. simpl in E. subst g.
  destruct (_ <=? _)%Z; [|by apply IH].
  apply IH; [done|]. apply Forall_app. split; [done|]. apply Forall_singleton.
  exists i, mi, added. split; [done|]. split; [|done]. apply Hin, list_elem_of_here.
Qed.

(** When every candidate is in reach of the first one, the first seed
    takes them all, in order. *)
Lemma cluster_grow_all thr seed cands g A :
  NoDup (fst <$> cands) →
  Forall (λ q, (fst q ∉ A)
               ∧ JS.ge (cosineSimilarity (embedding seed) (embedding (snd q))) thr = true)
         cands →
  cluster_grow thr seed cands g A
  = ((g ++ (fst <$> cands))%list, list_to_set (fst <$> cands) ∪ A).
Proof.
  revert g A. induction cands as [|[j mj] rest IH]; intros g A Hnd Hall; simpl.
  { rewrite app_nil_r. f_equal. apply set_eq. intros x.
    rewrite elem_of_union, elem_of_empty. tauto. }
  inversion Hall as [|? ? [Hj Hsim] Hall']; subst. simpl in Hj, Hsim.
  rewrite fmap_cons in Hnd. apply NoDup_cons in Hnd as [Hfresh Hnd]. simpl in Hfresh.
  rewrite bool_decide_eq_false_2 by done. rewrite Hsim.
  rewrite IH; [|done|].
  - rewrite <- app_assoc. f_equal. apply set_eq. intros x.
    rewrite !elem_of_union, elem_of_singleton. tauto.
  - apply Forall_forall. intros q Hq.
    eapply Forall_forall in Hall' as [HqA Hqs]; [|exact Hq]. split; [|done].
    rewrite elem_of_union, elem_of_singleton. intros [E|?]; [|done].
    apply Hfresh. rewrite <- E. by apply (list_elem_of_fmap_2 fst).
Qed.

Lemma cluster_seeds_assigned cfg cands seeds A cs :
  Forall (λ q, fst q ∈ A) seeds → cluster_seeds cfg cands seeds A cs = cs.
Proof.
  induction 1 as [|[i mi] rest Hi _ IH]; simpl; [done|].
  simpl in Hi. by rewrite bool_decide_eq_true_2.
Qed.

Lemma candidates_of_NoDup (memories : list Memory) :
  NoDup (fst <$> candidates_of memories).
Proof.
  eapply sublist_NoDup; [|apply fmap_sublist, filter_sublist].
  unfold indexed. rewrite fst_zip by (rewrite length_seq; lia). apply NoDup_seq.
Qed.

End ClusterShape.

(** X7. Every group that [cluster] returns lists distinct positions, begins
    with its seed, and every other member is a record whose similarity to
    the seed reaches [clusterThreshold]. *)
Theorem cluster_groups_around_seed (memories : list Memory) (config : ConsolidateConfig)
        (g : list nat) :
  g ∈ cluster memories config →
  NoDup g
  ∧ ∃ seedIdx seed others,
      g = seedIdx :: others
      ∧ memories !! seedIdx = Some seed
      ∧ ∀ i, i ∈ others →
             ∃ m, memories !! i = Some m
                  ∧ JS.ge (cosineSimilarity (embedding seed) (embedding m))
                          (r_clusterThreshold (merge_config DEFAULTS config)) = true.
Proof.
  intros Hg. split.
  { pose proof (cluster_groups memories config) as Hgr.
    eapply Forall_forall in Hgr as (_ & ? & _); [done|exact Hg]. }
  destruct (cluster_unfold memories config) as [E|E]; rewrite E in Hg.
  { by apply elem_of_nil in Hg. }
  pose proof (cluster_seeds_seeded (merge_config DEFAULTS config) (candidates_of memories)
                (candidates_of memories) ∅ [] (λ q Hq, Hq) (Forall_nil_2 _)) as Hall.
  eapply Forall_forall in Hall as (seedIdx & seed & others & -> & Hseed & Hothers);
    [|exact Hg].
  exists seedIdx, seed, others. split; [done|].
  apply candidates_of_elem in Hseed as [Hseed _]. split; [done|].
  intros i Hi. eapply Forall_forall in Hothers as (m & Hm & Hsim); [|exact Hi].
  apply candidates_of_elem in Hm as [Hm _]. by exists m.
Qed.

(** X8. When there are at least [minClusterSize] warm or cold records and
    each of them is within [clusterThreshold] of the first, [cluster]
    returns one group: all of them, in their order in the collection. *)
Theorem cluster_single_group (memories : list Memory) (config : ConsolidateConfig)
        (i0 : nat) (m0 : Memory) (others : list (nat * Memory)) :
  candidates_of memories = (i0, m0) :: others →
  Forall (λ q, JS.ge (cosineSimilarity (embedding m0) (embedding (snd q)))
                     (r_clusterThreshold (merge_config DEFAULTS config)) = true) others →
  (r_minClusterSize (merge_config DEFAULTS config) <= Z.of_nat (S (length others)))%Z →
  cluster memories config = [i0 :: (fst <$> others)].
Proof.
  intros Hc Hsim Hmin. unfold cluster. rewrite Hc.
  set (cfg := merge_config DEFAULTS config) in *.
  pose proof (candidates_of_NoDup memories) as Hnd. rewrite Hc, fmap_cons in Hnd.
  apply NoDup_cons in Hnd as [Hfresh Hnd]. simpl in Hfresh.
  destruct (Z.ltb_spec (Z.of_nat (length ((i0, m0) :: others))) (r_minClusterSize cfg))
    as [Hlt|_]; [cbn [length] in Hlt; lia|].
  simpl. rewrite bool_decide_eq_false_2 by apply not_elem_of_empty.
  rewrite bool_decide_eq_true_2
    by (rewrite elem_of_union, elem_of_singleton; by left).
  rewrite cluster_grow_all; [|done|].
  - simpl. rewrite length_fmap.
    match goal with
    | |- context [(?a <=? ?b)%Z] =>
        change a with (r_minClusterSize cfg);
        destruct (Z.leb_spec (r_minClusterSize cfg) b) as [_|?]; [|lia]
    end.
    rewrite cluster_seeds_assigned; [done|].
    apply Forall_forall. intros q Hq. rewrite elem_of_union, elem_of_list_to_set.
    left. by apply (list_elem_of_fmap_2 fst).
  - apply Forall_forall. intros q Hq. split.
    + rewrite elem_of_union, elem_of_singleton, elem_of_empty. intros [E|[]].
      apply Hfresh. rewrite <- E. by apply (list_elem_of_fmap_2 fst).
    + eapply Forall_forall in Hsim; [exact Hsim|done].
Qed.

(** ** NaN in an embedding *)

Lemma is_nan_true (x : float) : is_nan x = true ↔ Prim2SF x = S754_nan.
Proof.
  split.
  - intros H. destruct (Prim2SF x) eqn:E; try done;
      assert (is_nan x = false) as H' by (apply is_nan_spec; by rewrite E); congruence.
  - intros E. apply not_false_iff_true. intros H. by apply is_nan_spec in H.
Qed.

Lemma nan_mul_l (x y : float) : is_nan x = true → is_nan (x * y)%float = true.
Proof. rewrite !is_nan_true, mul_spec. by intros ->. Qed.

Lemma nan_add_l (x y : float) : is_nan x = true → is_nan (x + y)%float = true.
Proof. rewrite !is_nan_true, add_spec. by intros ->. Qed.

Lemma nan_add_r (x y : float) : is_nan y = true → is_nan (x + y)%float = true.
Proof.
  rewrite !is_nan_true, add_spec. intros ->. unfold SF64add, SFadd.
  by destruct (Prim2SF x) as [[|]|[|]| |].
Qed.

Lemma nan_sub_r (x y : float) : is_nan y = true → is_nan (x - y)%float = true.
Proof.
  rewrite !is_nan_true, sub_spec. intros ->. unfold SF64sub, SFsub.
  by destruct (Prim2SF x) as [[|]|[|]| |].
Qed.

Lemma nan_sub_l (x y : float) : is_nan x = true → is_nan (x - y)%float = true.
Proof. rewrite !is_nan_true, sub_spec. by intros ->. Qed.

Lemma nan_div_l (x y : float) : is_nan x = true → is_nan (x / y)%float = true.
Proof. rewrite !is_nan_true, div_spec. by intros ->. Qed.

Lemma nan_div_r (x y : float) : is_nan y = true → is_nan (x / y)%float = true.
Proof.
  rewrite !is_nan_true, div_spec. intros ->. unfold SF64div, SFdiv.
  by destruct (Prim2SF x) as [[|]|[|]| |].
Qed.

Lemma nan_sqrt (x : float) : is_nan x = true → is_nan (sqrt x) = true.
Proof. rewrite !is_nan_true, sqrt_spec. by intros ->. Qed.

(** No comparison holds of NaN. *)
Lemma nan_compares (x y : float) :
  is_nan x = true →
  JS.lt x y = false ∧ JS.gt x y = false ∧ JS.ge x y = false ∧ JS.lt y x = false
  ∧ JS.gt y x = false ∧ JS.ge y x = false ∧ JS.strict_eq x y = false.
Proof.
  intros Hx. repeat split.
  - destruct (JS.lt x y) eqn:E; [|done]. apply ltb_not_nan in E as [? _]. congruence.
  - destruct (JS.gt x y) eqn:E; [|done]. apply ltb_not_nan in E as [_ ?]. congruence.
  - destruct (JS.ge x y) eqn:E; [|done]. apply leb_not_nan in E as [_ ?]. congruence.
  - destruct (JS.lt y x) eqn:E; [|done]. apply ltb_not_nan in E as [_ ?]. congruence.
  - destruct (JS.gt y x) eqn:E; [|done]. apply ltb_not_nan in E as [? _]. congruence.
  - destruct (JS.ge y x) eqn:E; [|done]. apply leb_not_nan in E as [? _]. congruence.
  - unfold JS.strict_eq. rewrite FloatAxioms.eqb_spec.
    apply is_nan_true in Hx. by rewrite Hx.
Qed.

Lemma norm2_nan_from (acc : float) (a : list float) :
  is_nan acc = true ∨ (∃ x, x ∈ a ∧ is_nan x = true) →
  is_nan (foldl (λ acc x, (acc + x * x)%float) acc a) = true.
Proof.
  revert acc. induction a as [|y a IH]; intros acc; simpl.
  { intros [?|(x & Hx & _)]; [done|by apply elem_of_nil in Hx]. }
  intros [Hacc|(x & Hx & Hnan)]; apply IH.
  - left. by apply nan_add_l.
  - apply elem_of_cons in Hx as [->|Hx].
    + left. by apply nan_add_r, nan_mul_l.
    + right. by exists x.
Qed.

(** A NaN among the elements of either vector makes the similarity of
    two vectors of equal length NaN. *)
Lemma cosineSimilarity_nan (a b : list float) :
  length a = length b →
  (∃ x, (x ∈ a ∨ x ∈ b) ∧ is_nan x = true) →
  is_nan (cosineSimilarity a b) = true.
Proof.
  assert (∀ a b, length a = length b → (∃ x, x ∈ a ∧ is_nan x = true) →
                 is_nan (cosineSimilarity a b) = true) as Hleft.
  { clear. intros a b Hlen (x & Hx & Hnan).
    rewrite cosineSimilarity_unfold; [|done|by intros ->; apply elem_of_nil in Hx].
    assert (is_nan (norm a * norm b)%float = true) as Hden.
    { apply nan_mul_l, nan_sqrt, norm2_nan_from. right. by exists x. }
    destruct (nan_compares (norm a * norm b)%float 0%float Hden)
      as (_ & _ & _ & _ & _ & _ & ->).
    by apply nan_div_r. }
  intros Hlen (x & [Hx|Hx] & Hnan).
  - apply Hleft; [done|by exists x].
  - rewrite cosineSimilarity_comm. apply Hleft; [done|by exists x].
Qed.

(** ** Forget at the edges *)

Lemma filter_filter {A : Type} (f : A → bool) (xs : list A) :
  List.filter f (List.filter f xs) = List.filter f xs.
Proof.
  induction xs as [|x xs IH]; simpl; [done|].
  destruct (f x) eqn:E; simpl; [rewrite E; by f_equal|done].
Qed.

Lemma filter_all {A : Type} (f : A → bool) (xs : list A) (v : bool) :
  Forall (λ x, f x = v) xs → List.filter f xs = if v then xs else [].
Proof.
  induction 1 as [|x xs Hx _ IH]; simpl; [by destruct v|].
  rewrite Hx, IH. by destruct v.
Qed.

(** X9. Forgetting again with the same query and threshold forgets nothing
    more. *)
Theorem forget_twice (memories : list Memory) (queryEmbedding : list float)
        (threshold : option float) :
  forget (fst (forget memories queryEmbedding threshold)) queryEmbedding threshold
  = (fst (forget memories queryEmbedding threshold), 0).
Proof.
  unfold forget. simpl. rewrite filter_filter. f_equal. lia.
Qed.

(** X10. A query that no record can be compared with (it is empty, or its
    length differs from that of every embedding) has similarity 0 to
    each record: it forgets nothing when the threshold is above 0, and
    every record when it is not. *)
Theorem forget_incomparable_query (memories : list Memory) (queryEmbedding : list float)
        (threshold : option float) :
  Forall (λ m, length (embedding m) ≠ length queryEmbedding ∨ queryEmbedding = [])
         memories →
  forget memories queryEmbedding threshold
  = if JS.lt 0%float (default 0.7%float threshold)
    then (memories, 0) else ([], length memories).
Proof.
  intros Hall. unfold forget.
  rewrite (filter_all _ memories (JS.lt 0%float (default 0.7%float threshold))).
  - destruct (JS.lt _ _); simpl; f_equal; lia.
  - eapply Forall_impl; [exact Hall|]. intros m Hm. simpl.
    rewrite cosineSimilarity_degenerate; [done|]. destruct Hm; auto.
Qed.

(** X11. A record whose embedding holds a NaN is forgotten by every query of
    the same length, whatever the threshold: its similarity is NaN, and
    only records with a similarity below the threshold survive. *)
Theorem forget_drops_nan_embedding (memories : list Memory) (queryEmbedding : list float)
        (threshold : option float) (m : Memory) :
  length (embedding m) = length queryEmbedding →
  (∃ x, x ∈ embedding m ∧ is_nan x = true) →
  m ∉ fst (forget memories queryEmbedding threshold).
Proof.
  intros Hlen (x & Hx & Hnan). unfold forget. simpl.
  rewrite list_elem_of_In, filter_In. intros [_ Hlt].
  assert (is_nan (cosineSimilarity (embedding m) queryEmbedding) = true) as Hsim.
  { apply cosineSimilarity_nan; [done|]. exists x. auto. }
  destruct (nan_compares _ (default 0.7%float threshold) Hsim) as (E & _).
  congruence.
Qed.

(** ** Decay at the edges *)

Section DecayEdges.
Context {W : Type} (clock : Clock W).

(** [Math.min] with a NaN argument is NaN. *)
Lemma Math_min_nan (x y : float) : is_nan x = true → is_nan (JS.Math_min [x; y]) = true.
Proof. intros Hx. unfold JS.Math_min. simpl. by rewrite Hx. Qed.

(** A creation date that does not parse, a NaN importance and a NaN
    access count each make the effective age NaN. *)
Lemma effectiveAge_nan (now : float) (m : Memory) :
  is_nan (Date_getTime clock (createdAt m)) = true
  ∨ is_nan (importance m) = true
  ∨ is_nan (accessCount m) = true →
  is_nan (effectiveAge clock now m) = true.
Proof.
  unfold effectiveAge. intros [H|[H|H]].
  - by apply nan_div_l, nan_sub_l, nan_div_l, nan_sub_r.
  - by apply nan_div_r, nan_add_r, nan_mul_l.
  - by apply nan_div_l, nan_sub_r, Math_min_nan, nan_mul_l.
Qed.

Lemma decay_one_nan (now : float) (cfg : RequiredConfig) (m : Memory) :
  is_nan (effectiveAge clock now m) = true → decay_one clock now cfg m = m.
Proof.
  intros Hnan. unfold decay_one.
  assert (decay_tier clock now cfg m = tier m) as ->.
  { unfold decay_tier.
    destruct (nan_compares _ (r_hotDays cfg) Hnan) as (_ & -> & _).
    destruct (nan_compares _ (r_warmDays cfg) Hnan) as (_ & -> & _).
    destruct (nan_compares _ (r_coldDays cfg) Hnan) as (_ & -> & _).
    by rewrite !andb_false_r. }
  by rewrite bool_decide_eq_false_2 by (intros H; by apply H).
Qed.

(** X12. A record whose creation date does not parse, or whose importance or
    access count is NaN, never changes tier: [decay] returns it as it
    is, whatever the clock and the thresholds; a collection of such
    records comes back unchanged with [changed = 0]. *)
Theorem decay_skips_undated (memories : list Memory) (config : ConsolidateConfig) (w : W) :
  let undated m :=
    is_nan (Date_getTime clock (createdAt m)) = true
    ∨ is_nan (importance m) = true
    ∨ is_nan (accessCount m) = true in
  Forall2 (λ m m', undated m → m' = m) memories (fst (fst (decay clock memories config w)))
  ∧ (Forall undated memories → fst (decay clock memories config w) = (memories, 0)).
Proof.
  intros undated. rewrite decay_unfold. simpl. split.
  - apply Forall2_fmap_r, Forall_Forall2_diag, Forall_forall. intros m _ Hm.
    by apply decay_one_nan, effectiveAge_nan.
  - intros Hall. f_equal.
    + rewrite <- (list_fmap_id memories) at 2. apply Forall_fmap_ext.
      eapply Forall_impl; [exact Hall|]. intros m Hm.
      by apply decay_one_nan, effectiveAge_nan.
    + rewrite (filter_all _ memories false); [done|].
      eapply Forall_impl; [exact Hall|]. intros m Hm. unfold tier_moves.
      apply bool_decide_eq_false_2. intros Hne. apply Hne.
      pose proof (decay_one_nan (fst (Date_now clock w)) (merge_config DEFAULTS config) m
                    (effectiveAge_nan _ m Hm)) as E.
      rewrite <- (tier_decay_one clock). by rewrite E.
Qed.

(** [decay] called [k] times in a row, each call reading the clock
    again. *)
Fixpoint decay_repeat (k : nat) (memories : list Memory) (config : ConsolidateConfig)
         (w : W) : list Memory * W :=
  match k with
  | 0 => (memories, w)
  | S k' =>
      let '(r, w1) := decay clock memories config w in
      decay_repeat k' (fst r) config w1
  end.

(** X13. Whatever the clock reads, [k] calls of [decay] move a record forward
    by at most [k] tiers and never back: a hot record is not in the
    archive tier before the third call. *)
Theorem decay_repeat_steps (k : nat) (memories : list Memory) (config : ConsolidateConfig)
        (w : W) :
  Forall2 (λ m m',
             tier_rank (tier m) ≤ tier_rank (tier m') ≤ tier_rank (tier m) + k
             ∧ id m' = id m ∧ content m' = content m)
          memories (fst (decay_repeat k memories config w)).
Proof.
  revert memories w. induction k as [|k IH]; intros memories w; simpl.
  { apply Forall_Forall2_diag, Forall_forall. intros m _. split; [lia|done]. }
  pose proof (decay_unfold clock memories config w) as E. simpl in E.
  destruct (decay clock memories config w) as [r w1]. injection E as -> ->.
  simpl.
  eapply (Forall2_trans
            (λ m m1, m1 = decay_one clock (fst (Date_now clock w))
                                    (merge_config DEFAULTS config) m));
    [| |apply IH].
  2: { apply Forall2_fmap_r, Forall_Forall2_diag, Forall_forall. by intros m _. }
  intros m m1 m2 -> (Hrank & Hid & Hcontent). cbv beta in *.
  rewrite tier_decay_one, decay_tier_spec in Hrank.
  assert (id (decay_one clock (fst (Date_now clock w)) (merge_config DEFAULTS config) m)
          = id m
          ∧ content (decay_one clock (fst (Date_now clock w))
                               (merge_config DEFAULTS config) m) = content m) as [E1 E2].
  { unfold decay_one. by destruct (bool_decide _). }
  rewrite Hid, Hcontent, E1, E2. split; [|done].
  destruct (spec_transition_step (merge_config DEFAULTS config)
              (effectiveAge clock (fst (Date_now clock w)) m) (tier m)) as [Hs|Hs];
    rewrite Hs in Hrank; lia.
Qed.

End DecayEdges.

(** ** The compactor: how long the content can be, and a second run *)

Lemma string_app_cons (c : Ascii.ascii) (s r : string) :
  (String c s ++ r)%string = String c (s ++ r)%string.
Proof. reflexivity. Qed.

Lemma string_length_app (s r : string) :
  String.length (s ++ r)%string = String.length s + String.length r.
Proof.
  induction s as [|c s IH]; [done|].
  rewrite string_app_cons. simpl. by rewrite IH.
Qed.

Lemma substring_app_prefix (s r : string) :
  substring 0 (String.length s) (s ++ r)%string = s.
Proof.
  induction s as [|c s IH].
  - by destruct r.
  - rewrite string_app_cons. simpl. by rewrite IH.
Qed.

Lemma truncated_length (n : Z) (m : Memory) :
  (0 < n)%Z → compactable n m →
  Z.of_nat (String.length (content (truncated n m))) = (n + 3)%Z.
Proof.
  intros Hpos (_ & Hlen & _). simpl. rewrite string_length_app.
  destruct (slice0_prefix (content m) n Hpos Hlen) as (rest & _ & L).
  simpl. lia.
Qed.

(** X14. After the compactor has run with a positive [truncateLength], the
    content of every archive record not tagged ['consolidated'] is at
    most [truncateLength + 3] characters long. *)
Theorem archive_bounds_content (memories : list Memory) (truncateLength : Z) (m' : Memory) :
  (0 < truncateLength)%Z →
  m' ∈ fst (archive memories truncateLength) →
  tier m' = Archive → "consolidated" ∉ tags m' →
  (Z.of_nat (String.length (content m')) <= truncateLength + 3)%Z.
Proof.
  intros Hpos Hin Htier Htag. rewrite archive_enabled in Hin by done. simpl in Hin.
  apply list_elem_of_fmap in Hin as (m & -> & _). unfold archive_one in *.
  destruct (should_truncate truncateLength m) eqn:E.
  - apply should_truncate_iff in E. rewrite truncated_length by done. lia.
  - destruct (Z.ltb_spec truncateLength (Z.of_nat (String.length (content m))))
      as [Hlt|?]; [|lia].
    exfalso. assert (should_truncate truncateLength m = true); [|congruence].
    apply should_truncate_iff. by repeat split.
Qed.

Lemma truncated_again (n : Z) (m : Memory) :
  (0 < n)%Z → compactable n m →
  compactable n (truncated n m)
  ∧ content (truncated n (truncated n m)) = content (truncated n m)
  ∧ ∃ md, metadata (truncated n (truncated n m)) = Some md
          ∧ md !! "originalLength" = Some (MInt (n + 3))
          ∧ md !! "truncated" = Some (MBool true).
Proof.
  intros Hpos Hc. pose proof (truncated_length n m Hpos Hc) as Hlen.
  destruct Hc as (Htier & Hlong & Htag).
  split; [by repeat split; [..|lia|]|]. split.
  - destruct (slice0_prefix (content m) n Hpos Hlong) as (rest & _ & L).
    simpl. f_equal. unfold JS.slice0 at 1.
    destruct (Z.ltb_spec n 0); [lia|].
    replace (Z.to_nat n) with (String.length (JS.slice0 (content m) n)) by lia.
    apply substring_app_prefix.
  - eexists. split; [reflexivity|]. split.
    + rewrite lookup_insert_eq. by rewrite Hlen.
    + by rewrite lookup_insert_ne, lookup_insert_eq.
Qed.

(** X15. The compactor is not idempotent.  Run a second time with the same
    positive [truncateLength], it compacts the same records again: it
    reports the same count, leaves every content as the first run made
    it, and overwrites [originalLength] with [truncateLength + 3], the
    length of the already compacted content. *)
Theorem archive_second_run (memories : list Memory) (truncateLength : Z) :
  (0 < truncateLength)%Z →
  let once := archive memories truncateLength in
  let twice := archive (fst once) truncateLength in
  snd twice = snd once
  ∧ content <$> fst twice = content <$> fst once
  ∧ Forall2 (λ m m2,
               compactable truncateLength m →
               ∃ md, metadata m2 = Some md
                     ∧ md !! "originalLength" = Some (MInt (truncateLength + 3)))
            memories (fst twice).
Proof.
  intros Hpos once twice. subst once twice.
  rewrite !archive_enabled by done. simpl.
  assert (∀ m, should_truncate truncateLength (archive_one truncateLength m)
               = should_truncate truncateLength m) as Hsame.
  { intros m. unfold archive_one. destruct (should_truncate truncateLength m) eqn:E; [|done].
    apply should_truncate_iff in E. apply should_truncate_iff.
    by apply truncated_again. }
  split; [|split].
  - induction memories as [|m ms IH]; simpl; [done|].
    rewrite Hsame. destruct (should_truncate truncateLength m); simpl;
      [f_equal|]; exact IH.
  - rewrite <- !list_fmap_compose. apply list_fmap_ext. intros _ m _. simpl.
    unfold archive_one at 1. rewrite Hsame. unfold archive_one.
    destruct (should_truncate truncateLength m) eqn:E; [|done].
    apply should_truncate_iff in E. by apply truncated_again.
  - rewrite <- list_fmap_compose.
    apply Forall2_fmap_r, Forall_Forall2_diag, Forall_forall. intros m _ Hc. simpl.
    unfold archive_one at 1. rewrite Hsame. unfold archive_one.
    rewrite (proj2 (should_truncate_iff truncateLength m) Hc).
    destruct (truncated_again truncateLength m Hpos Hc) as (_ & _ & md & ? & ? & _).
    by exists md.
Qed.

(** ** A summarizer that never helps, and an empty collection *)

Section SummarizerUse.
Context {W : Type} (clock : Clock W).

Lemma merge_loop_all_skipped (s : Summarizer W) (memories : list Memory)
      (clusters : list (list nat)) (st : MergeState) (w : W) :
  (∀ texts w, usable (fst (s texts w)) = false) →
  Forall (in_range memories) clusters →
  ∃ w1, merge_loop clock s memories clusters st w = (Some st, w1).
Proof.
  intros Hbad Hr. revert w. induction Hr as [|g rest Hg _ IH]; intros w; simpl.
  { by exists w. }
  rewrite merge_cluster_skip by done. apply IH.
Qed.

Lemma cluster_and_summarize_skipped (s : Summarizer W) (current : list Memory)
      (cfg : RequiredConfig) (w : W) :
  (∀ texts w, usable (fst (s texts w)) = false) →
  ∃ w1, cluster_and_summarize clock current cfg (Some s) w
        = (Some (current, length (cluster current (as_config cfg)), 0), w1).
Proof.
  intros Hbad. unfold cluster_and_summarize, summarizeClusters.
  destruct (0 <? _); [|by exists w].
  destruct (merge_loop_all_skipped s current (cluster current (as_config cfg))
              (mkMerge current ∅ 0) w Hbad (cluster_in_range _ _)) as [w1 ->].
  exists w1. simpl. by rewrite drop_indices_empty.
Qed.

(** X16. With a summarizer that only ever rejects or answers with fewer than
    ten characters, [consolidate] returns the same records, tier
    snapshots and decay, deduplication and archive counters as it does
    without a summarizer, and reports nothing summarized. *)
Theorem useless_summarizer_changes_nothing (s : Summarizer W) (memories : list Memory)
        (config : ConsolidateConfig) (w : W) :
  (∀ texts w, usable (fst (s texts w)) = false) →
  ∃ out r1 w1 r2 w2,
    consolidate clock memories config (Some s) w = (Some (out, r1), w1)
    ∧ consolidate clock memories config None w = (Some (out, r2), w2)
    ∧ summarized r1 = 0
    ∧ before r1 = before r2 ∧ after r1 = after r2
    ∧ decayed r1 = decayed r2 ∧ deduplicated r1 = deduplicated r2
    ∧ archived r1 = archived r2.
Proof.
  intros Hbad. unfold consolidate. destruct (Date_now clock w) as [start w0].
  destruct (decay clock memories _ w0) as [[aged changed] w1]. cbn [fst snd].
  destruct (cluster_and_summarize_skipped s
              (fst (deduplicate aged
                      (Some (r_deduplicateThreshold (merge_config DEFAULTS config)))))
              (merge_config DEFAULTS config) w1 Hbad) as [w2 ->].
  cbn [cluster_and_summarize].
  destruct (Date_iso clock w2) as [stamp2 w3]. destruct (Date_now clock w3) as [finish2 w4].
  destruct (Date_iso clock w1) as [stamp1 w5]. destruct (Date_now clock w5) as [finish1 w6].
  by eexists _, _, _, _, _.
Qed.

(** X17. Of an empty collection [consolidate] returns an empty collection and
    a report of zeros, for every configuration, and the summarizer is
    not consulted. *)
Theorem consolidate_nothing (config : ConsolidateConfig)
        (summarizer : option (Summarizer W)) (w : W) :
  consolidate clock [] config summarizer w = consolidate clock [] config None w
  ∧ ∃ report w1,
      consolidate clock [] config summarizer w = (Some ([], report), w1)
      ∧ before report = mkSnapshot 0 (mkCounts 0 0 0 0)
      ∧ after report = mkSnapshot 0 (mkCounts 0 0 0 0)
      ∧ decayed report = 0 ∧ deduplicated report = 0 ∧ clustersFound report = 0
      ∧ summarized report = 0 ∧ archived report = 0.
Proof.
  assert (∀ cfg, cluster [] (as_config cfg) = []) as Hc.
  { intros cfg. unfold cluster. simpl. by destruct (_ <? _)%Z. }
  assert (∀ n, archive [] n = ([], 0)) as Ha.
  { intros n. unfold archive. by destruct (_ <=? _)%Z. }
  unfold consolidate, decay, cluster_and_summarize.
  destruct (Date_now clock w) as [start w0]. destruct (Date_now clock w0) as [now w1].
  cbn [decay_map fst snd]. rewrite Hc, Ha.
  change (deduplicate [] _) with (@nil Memory, 0). cbn [fst snd length Nat.ltb Nat.leb].
  destruct summarizer as [s|]; cbv beta iota; rewrite !Ha; cbn [fst snd length];
    destruct (Date_iso clock w1) as [stamp w2]; destruct (Date_now clock w2) as [finish w3];
    (split; [done|]); by eexists _, _.
Qed.

(** ** Counting the calls to the summarizer *)

(** The world with a counter beside it: the clock leaves the counter
    alone, and every call of the summarizer adds one. *)
Definition with_counter (c : Clock W) : Clock (W * nat) :=
  mkClock (W * nat)
          (λ wn, let '(x, w1) := Date_now c (fst wn) in (x, (w1, snd wn)))
          (λ wn, let '(x, w1) := Date_iso c (fst wn) in (x, (w1, snd wn)))
          (Date_getTime c).

Definition counting (s : Summarizer W) : Summarizer (W * nat) :=
  λ texts wn, let '(r, w1) := s texts (fst wn) in (r, (w1, S (snd wn))).

Lemma merge_group_counter memories g recs summary st w (n : nat) :
  merge_group (with_counter clock) memories g recs summary st (w, n)
  = let '(st1, w1) := merge_group clock memories g recs summary st w in (st1, (w1, n)).
Proof.
  unfold merge_group. destruct (_ || _); [done|].
  destruct (reduce_best _) as [[best mbest]|]; [|done].
  destruct (list_find _ _) as [[k r]|]; [|done].
  simpl. by destruct (Date_iso clock w).
Qed.

Lemma merge_cluster_counter (s : Summarizer W) memories g st w (n : nat) :
  in_range memories g →
  merge_cluster (with_counter clock) (counting s) memories g st (w, n)
  = let '(r, w1) := merge_cluster clock s memories g st w in (r, (w1, S n)).
Proof.
  intros Hr. unfold merge_cluster. rewrite (mapM_records _ _ Hr).
  unfold counting. simpl. destruct (s _ w) as [[summary|] w1]; [|done].
  rewrite merge_group_counter. by destruct (merge_group clock _ _ _ _ _ _).
Qed.

Lemma merge_loop_counter (s : Summarizer W) memories (clusters : list (list nat))
      st w (n : nat) :
  Forall (in_range memories) clusters →
  merge_loop (with_counter clock) (counting s) memories clusters st (w, n)
  = let '(r, w1) := merge_loop clock s memories clusters st w in
    (r, (w1, n + length clusters)).
Proof.
  intros Hr. revert st w n. induction Hr as [|g rest Hg _ IH]; intros st w n; simpl.
  { f_equal. f_equal. lia. }
  rewrite merge_cluster_counter by done.
  destruct (merge_cluster_ok clock s memories g st w Hg) as (st1 & w1 & -> & _).
  rewrite IH. destruct (merge_loop clock s memories rest st1 w1) as [r w2].
  f_equal. f_equal. lia.
Qed.

(** X18. The coordinator calls the summarizer once for each cluster, one
    after the other, also after a failure: run on the clusters of
    [cluster] with a counter beside the world, it returns what it
    returns without the counter, and the counter has advanced by the
    number of clusters. *)
Theorem one_call_per_cluster (s : Summarizer W) (memories : list Memory)
        (config : ConsolidateConfig) (w : W) (n : nat) :
  summarizeClusters (with_counter clock) memories (cluster memories config)
                    (counting s) (w, n)
  = let '(r, w1) := summarizeClusters clock memories (cluster memories config) s w in
    (r, (w1, n + length (cluster memories config))).
Proof.
  unfold summarizeClusters.
  rewrite merge_loop_counter by apply cluster_in_range.
  by destruct (merge_loop clock s memories _ _ w) as [[st|] w1].
Qed.

End SummarizerUse.

(** ** The further properties at work *)

Definition pair_of_duplicates : list Memory :=
  [ sample "dup1" "HNSW enables fast search" [1; 0]%float Hot 0.5%float;
    sample "dup2" "HNSW enables fast search queries" [1; 0.0625]%float Hot 1%float ].

Lemma deduplicate_keeps_unbeaten_witness :
  unbeaten pair_of_duplicates 1
           (sample "dup2" "HNSW enables fast search queries" [1; 0.0625]%float Hot 1%float)
  ∧ sample "dup2" "HNSW enables fast search queries" [1; 0.0625]%float Hot 1%float
    ∈ fst (deduplicate pair_of_duplicates (Some 0.92%float)).
Proof.
  assert (unbeaten pair_of_duplicates 1
            (sample "dup2" "HNSW enables fast search queries" [1; 0.0625]%float Hot 1%float))
    as H.
  { split; [reflexivity|]. split.
    - intros [|i] mi Hlt Hl; [|lia]. injection Hl as <-. vm_compute. reflexivity.
    - intros [|[|j]] mj Hlt Hl; [lia|lia|]. discriminate Hl. }
  split; [exact H|].
  exact (deduplicate_keeps_unbeaten pair_of_duplicates (Some 0.92%float) 1 _ H).
Defined.

Lemma deduplicate_leaves_one_witness :
  pair_of_duplicates ≠ [] ∧ fst (deduplicate pair_of_duplicates None) ≠ [].
Proof.
  assert (pair_of_duplicates ≠ []) as H by discriminate.
  split; [exact H|]. exact (deduplicate_leaves_one pair_of_duplicates None H).
Defined.

Lemma cluster_groups_around_seed_witness :
  [0; 1; 2] ∈ cluster topic no_config
  ∧ NoDup [0; 1; 2]
  ∧ ∃ seedIdx seed others,
      [0; 1; 2] = seedIdx :: others
      ∧ topic !! seedIdx = Some seed
      ∧ ∀ i, i ∈ others →
             ∃ m, topic !! i = Some m
                  ∧ JS.ge (cosineSimilarity (embedding seed) (embedding m))
                          (r_clusterThreshold (merge_config DEFAULTS no_config)) = true.
Proof.
  assert ([0; 1; 2] ∈ cluster topic no_config) as H.
  { rewrite cluster_topic. apply list_elem_of_here. }
  split; [exact H|]. exact (cluster_groups_around_seed topic no_config [0; 1; 2] H).
Defined.

Lemma cluster_single_group_witness :
  cluster topic no_config = [[0; 1; 2]].
Proof.
  apply (cluster_single_group topic no_config 0
           (sample "w1" "Topic A detail one" [1; 0]%float Warm 0.5%float)
           [ (1, sample "w2" "Topic A detail two" [1; 0.5]%float Warm 0.75%float);
             (2, sample "w3" "Topic A detail three" [1; -0.5]%float Warm 0.75%float) ]).
  - vm_compute. reflexivity.
  - repeat constructor.
  - simpl. lia.
Defined.

Lemma forget_incomparable_query_witness :
  forget topic [1; 0; 0]%float (Some 0.7%float) = (topic, 0)
  ∧ forget topic [1; 0; 0]%float (Some (-0.5)%float) = ([], 3).
Proof.
  assert (Forall (λ m, length (embedding m) ≠ length [1; 0; 0]%float
                       ∨ [1; 0; 0]%float = []) topic) as H.
  { unfold topic. repeat (apply Forall_cons_2; [left; simpl; lia|]). apply Forall_nil_2. }
  split.
  - exact (forget_incomparable_query topic [1; 0; 0]%float (Some 0.7%float) H).
  - exact (forget_incomparable_query topic [1; 0; 0]%float (Some (-0.5)%float) H).
Defined.

Definition broken : Memory := sample "n" "broken embedding" [nan; 1]%float Hot 0.5%float.

Lemma forget_drops_nan_embedding_witness :
  length (embedding broken) = length [0; 1]%float
  ∧ (broken ∉ fst (forget (broken :: topic) [0; 1]%float (Some 2%float))).
Proof.
  split; [reflexivity|].
  apply (forget_drops_nan_embedding (broken :: topic) [0; 1]%float (Some 2%float) broken).
  - reflexivity.
  - exists nan. split; [apply list_elem_of_here|reflexivity].
Defined.

Definition long_archived : Memory :=
  sample "old" "abcdefgh" [1; 0]%float Archive 0.5%float.

Lemma archive_bounds_content_witness :
  (Z.of_nat (String.length (content (truncated 3 long_archived))) <= 3 + 3)%Z.
Proof.
  apply (archive_bounds_content [long_archived] 3 (truncated 3 long_archived)).
  - lia.
  - vm_compute. apply list_elem_of_here.
  - reflexivity.
  - apply not_elem_of_nil.
Defined.

Lemma archive_second_run_witness :
  snd (archive (fst (archive [long_archived] 3)) 3) = snd (archive [long_archived] 3)
  ∧ content <$> fst (archive (fst (archive [long_archived] 3)) 3)
    = content <$> fst (archive [long_archived] 3)
  ∧ Forall2 (λ m m2,
               compactable 3 m →
               ∃ md, metadata m2 = Some md
                     ∧ md !! "originalLength" = Some (MInt (3 + 3)))
            [long_archived] (fst (archive (fst (archive [long_archived] 3)) 3)).
Proof.
  apply (archive_second_run [long_archived] 3). lia.
Defined.

(** The second run on a record of eight characters: the content stays
    [abc...] and the recorded original length is 6, not 8. *)
Example archive_second_run_loses_length :
  (λ m, (content m, (λ md, md !! "originalLength") <$> metadata m))
    <$> fst (archive (fst (archive [long_archived] 3)) 3)
  = [("abc...", Some (Some (MInt 6)))].
Proof. vm_compute. reflexivity. Qed.

Lemma useless_summarizer_witness :
  ∃ out r1 w1 r2 w2,
    consolidate still_clock topic no_config (Some failing_summarizer) tt
    = (Some (out, r1), w1)
    ∧ consolidate still_clock topic no_config None tt = (Some (out, r2), w2)
    ∧ summarized r1 = 0
    ∧ before r1 = before r2 ∧ after r1 = after r2
    ∧ decayed r1 = decayed r2 ∧ deduplicated r1 = deduplicated r2
    ∧ archived r1 = archived r2.
Proof.
  apply (useless_summarizer_changes_nothing still_clock failing_summarizer topic
           no_config tt).
  intros texts w. reflexivity.
Defined.

(** Two clusters, two calls: the counter beside the world goes from 0
    to the number of clusters. *)
Example one_call_per_cluster_topic :
  snd (snd (summarizeClusters (with_counter still_clock) topic (cluster topic no_config)
                              (counting failing_summarizer) (tt, 0)))
  = 1.
Proof. vm_compute. reflexivity. Qed.
